(** * HybridDircon: the mode-sequence transcription of
      systems/trajectory_optimization/hybrid_dircon.cc

    The development embeds the constructor and the methods of
    [HybridDircon<T>] as executable Rocq functions over an explicit object
    state, and proves (or refutes, at concrete inputs) the properties the
    specification states about them.

    Modelling conventions.
    - C++ [int] is [Z]; where the source multiplies two values its caller
      chooses (the sizes of the blocks it allocates, the offset of a
      post-impact block) the product is written with the wrap-around of a
      32-bit [int] ([int_wrap]).  [double] is idealised as a rational ([Q]).
    - An Eigen vector or a [std::vector] is a [list].  [v.segment(start, n)]
      and an indexed access stop the program when they leave the vector
      (Eigen's range assertion; the access is undefined otherwise):
      [segment] and [vec_at] return [Abort] there.
    - [DRAKE_ASSERT] is armed: a false condition stops the program.
    - The comma initialiser [ret << a, b] writes the blocks into the rows
      [ret] already has, one below the other; it does not resize [ret], and
      the same range assertion stops the program when a block does not fit
      or rows stay unwritten ([comma_write], [comma_finished]).
    - A computation that stops keeps the object state it had reached, so
      what was allocated and added before the stop can be observed. *)

From Stdlib Require Import ZArith QArith List String Bool Lia DecimalString.
From stdpp Require Import base list.
Import ListNotations.
Local Open Scope Z_scope.

(** ** Computations over an object state that may stop *)

Inductive outcome (A : Type) : Type :=
| Done (a : A)
| Abort (why : string).
Arguments Done {A} a.
Arguments Abort {A} why.

Definition M (S A : Type) : Type := S -> outcome A * S.

Definition ret {S A : Type} (a : A) : M S A := fun s => (Done a, s).

Definition bind {S A B : Type} (m : M S A) (k : A -> M S B) : M S B :=
  fun s =>
    match m s with
    | (Done a, s') => k a s'
    | (Abort w, s') => (Abort w, s')
    end.

Definition abort {S A : Type} (why : string) : M S A := fun s => (Abort why, s).

Definition gets {S A : Type} (f : S -> A) : M S A := fun s => (Done (f s), s).

Definition modify {S : Type} (f : S -> S) : M S unit := fun s => (Done tt, f s).

Definition lift {S A : Type} (o : outcome A) : M S A := fun s => (o, s).

(** A computation of a base-class sub-object run inside the derived object. *)
Definition zoom {S T A : Type} (prj : T -> S) (upd : S -> T -> T) (m : M S A)
  : M T A :=
  fun t => let (r, s') := m (prj t) in (r, upd s' t).

Notation "'let*' x ':=' m 'in' k" := (bind m (fun x => k))
  (at level 10, x name, m at level 100, k at level 200).
Notation "m '>>' k" := (bind m (fun _ => k))
  (at level 90, right associativity).

(** [for (int j = lo; j < lo + n; j++) body(j)] *)
Fixpoint for_range {S : Type} (lo : Z) (n : nat) (body : Z -> M S unit)
  : M S unit :=
  match n with
  | O => ret tt
  | S n' => body lo >> for_range (lo + 1) n' body
  end.

(** [for (int j = lo; j < hi; j++) body(j)] *)
Definition for_loop {S : Type} (lo hi : Z) (body : Z -> M S unit) : M S unit :=
  for_range lo (Z.to_nat (hi - lo)) body.

(** The same loop carrying a local variable that the body updates. *)
Fixpoint for_range_acc {S L : Type} (lo : Z) (n : nat) (acc : L)
    (body : Z -> L -> M S L) : M S L :=
  match n with
  | O => ret acc
  | S n' => let* acc' := body lo acc in for_range_acc (lo + 1) n' acc' body
  end.

Definition for_loop_acc {S L : Type} (lo hi : Z) (acc : L)
    (body : Z -> L -> M S L) : M S L :=
  for_range_acc lo (Z.to_nat (hi - lo)) acc body.

(** ** Vectors *)

Definition size {A : Type} (v : list A) : Z := Z.of_nat (length v).

(** [v.segment(start, n)] *)
Definition segment {A : Type} (v : list A) (start n : Z) : outcome (list A) :=
  if (0 <=? start) && (0 <=? n) && (start + n <=? size v)
  then Done (take (Z.to_nat n) (drop (Z.to_nat start) v))
  else Abort "segment out of range".

(** [v[i]] *)
Definition vec_at {A : Type} (v : list A) (i : Z) : outcome A :=
  if i <? 0 then Abort "index out of range"
  else match v !! Z.to_nat i with
       | Some a => Done a
       | None => Abort "index out of range"
       end.

(** [std::accumulate(v.begin(), v.end(), 0)] *)
Definition accumulate (v : list Z) : Z := fold_left Z.add v 0.

(** The value a 32-bit [int] holds for the mathematical result [z] of an
    [int] operation (two's complement wrap-around). *)
Definition int_wrap (z : Z) : Z := (z + 2 ^ 31) mod 2 ^ 32 - 2 ^ 31.

(** One step of a comma initialiser [ret << ..., b] over a vector of [rows]
    rows of which [written] are filled: the block [b] is written below them
    and must fit in the rows that are left. *)
Definition comma_write {A : Type} (rows : Z) (written b : list A) : outcome (list A) :=
  if size written + size b <=? rows then Done (written ++ b)
  else Abort "comma initializer out of range".

(** The end of the comma initialiser's statement: every row must have been
    written.  The result is the vector as initialised. *)
Definition comma_finished {A : Type} (rows : Z) (written : list A) : outcome (list A) :=
  if size written =? rows then Done written
  else Abort "too few coefficients passed to comma initializer".

(** [std::to_string(i)] *)
Definition to_string (i : Z) : string := NilZero.string_of_int (Z.to_int i).

(** ** The collaborators the transcription reads *)

(** [RigidBodyTree<double>]: the three dimensions the transcription asks for. *)
Record RigidBodyTree : Type := mkTree {
  get_num_positions : Z;
  get_num_velocities : Z;
  get_num_actuators : Z
}.

(** One kinematic constraint object ([DirconKinematicData<T>]): the number of
    rows it contributes and the number of auxiliary force constraints it
    exposes; [kd_id] stands for the object's address. *)
Record DirconKinematicData : Type := mkData {
  kd_id : nat;
  getLength : Z;
  numForceConstraints : Z
}.

(** The constraint set of one mode ([DirconKinematicDataSet<T>]); [ds_id]
    stands for the object's address (the transcription holds pointers). *)
Record DirconKinematicDataSet : Type := mkDataSet {
  ds_id : nat;
  ds_constraints : list DirconKinematicData
}.

Definition getNumConstraintObjects (ds : DirconKinematicDataSet) : Z :=
  size (ds_constraints ds).

Definition getConstraint (ds : DirconKinematicDataSet) (j : Z)
  : outcome DirconKinematicData :=
  vec_at (ds_constraints ds) j.

(** Modelled from the spec: [DirconKinematicDataSet::countConstraints] is
    defined outside this file; the set "aggregates" its constraints and n_c is
    the number of active constraint rows, so the count is the sum of the
    lengths of the constraint objects. *)
Definition countConstraints (ds : DirconKinematicDataSet) : Z :=
  fold_right (fun kd acc => getLength kd + acc) 0 (ds_constraints ds).

(** Modelled from the spec: the type of [getStartType()] and [getEndType()],
    declared outside this file: the three enforcement levels a kinematic
    point constraint can be configured with at the first and the last knot
    (value and velocity enforced, value only enforced, row omitted). *)
Inductive DirconKinConstraintType : Type :=
| ValueAndVelocity
| ValueOnly
| RowOmitted.

(** Modelled from the spec: [DirconOptions], whose declaration is outside
    this file: the per-row "relative" flags, the start and end types
    and the weight of the optional force cost. *)
Record DirconOptions : Type := mkOptions {
  getConstraintsRelative : list bool;
  getStartType : DirconKinConstraintType;
  getEndType : DirconKinConstraintType;
  getForceCost : Q
}.

(** Modelled from the spec: [DirconOptions::getNumRelative], declared outside
    this file: the offset vector has one entry per row flagged relative
    (o in R^{n_rel}). *)
Definition getNumRelative (o : DirconOptions) : Z :=
  size (filter (fun b => b = true) (getConstraintsRelative o)).

(** ** Decision variables, constraints and costs *)

(** A decision variable: its position in the program's variable vector, the
    name its block was created under and its row in that block. *)
Record DecisionVariable : Type := mkVariable {
  var_id : nat;
  var_name : string;
  var_row : nat
}.

Definition VectorXDecisionVariable : Type := list DecisionVariable.

(** [DirconDynamicConstraint<T>(tree, constraints)] *)
Record DirconDynamicConstraint : Type := mkDynamic {
  dyn_tree : RigidBodyTree;
  dyn_constraints : DirconKinematicDataSet
}.

(** Modelled from the spec: the class [DirconDynamicConstraint] is defined
    outside this file; the spec fixes its dimension, "Fixed-size (2·n_v)
    equality constraint". *)
Definition num_constraints (c : DirconDynamicConstraint) : Z :=
  2 * get_num_velocities (dyn_tree c).



(** [DirconKinematicConstraint<T>(tree, constraints, is_relative [, type])];
    [kin_type = None] is the three-argument constructor, which leaves the
    type at the class default. *)
Record DirconKinematicConstraint : Type := mkKinematic {
  kin_tree : RigidBodyTree;
  kin_constraints : DirconKinematicDataSet;
  kin_relative : list bool;
  kin_type : option DirconKinConstraintType
}.

Inductive Constraint : Type :=
| BoundingBoxConstraint (lb ub : Q)
| LinearEqualityConstraint          (* over (a, b): a == b *)
| DynamicConstraint (c : DirconDynamicConstraint)
| KinematicConstraint (c : DirconKinematicConstraint)
| ForceConstraint (kd : DirconKinematicData) (k : Z).

(** A constraint bound to the variables it is evaluated on. *)
Record Binding : Type := mkBinding {
  constraint : Constraint;
  variables : VectorXDecisionVariable
}.

(** [symbolic::Expression], as far as the running cost needs it. *)
Inductive Expression : Type :=
| EConst (c : Q)
| EVar (v : DecisionVariable)
| EPlaceholder_t
| EPlaceholder_x (i : nat)
| EPlaceholder_u (i : nat)
| EAdd (a b : Expression)
| EMul (a b : Expression)
| EDiv (a b : Expression).

Inductive Cost : Type :=
| ExpressionCost (e : Expression)
| L2NormCost (dim : Z) (vars : VectorXDecisionVariable).

(** ** The object state *)

(** [solvers::MathematicalProgram]: the variables created so far, the initial
    guess of each ([None] is the NaN of a guess not yet set), and the
    constraints and costs in the order they were added. *)
Record MathematicalProgram : Type := mkProg {
  decision_variables_ : VectorXDecisionVariable;
  x_initial_guess_ : list (option Q);
  bindings_ : list Binding;
  costs_ : list Cost
}.

(** [MultipleShooting], the base class of the transcription. *)
Record MultipleShooting : Type := mkShooting {
  ms_base : MathematicalProgram;
  num_inputs_ : Z;
  num_states_ : Z;
  N_ : Z;
  timesteps_are_decision_variables_ : bool;
  fixed_timestep_ : Q;
  h_vars_ : VectorXDecisionVariable;
  x_vars_ : VectorXDecisionVariable;
  u_vars_ : VectorXDecisionVariable
}.

(** [HybridDircon<T>] *)
Record HybridDircon : Type := mkHybrid {
  hd_base : MultipleShooting;
  tree_ : RigidBodyTree;
  num_modes_ : Z;
  mode_lengths_ : list Z;
  mode_start_ : list Z;
  constraints_ : list DirconKinematicDataSet;
  num_kinematic_constraints_ : list Z;
  force_vars_ : list VectorXDecisionVariable;
  collocation_force_vars_ : list VectorXDecisionVariable;
  collocation_slack_vars_ : list VectorXDecisionVariable;
  offset_vars_ : list VectorXDecisionVariable;
  v_post_impact_vars_ : VectorXDecisionVariable
}.

Definition empty_program : MathematicalProgram := mkProg [] [] [] [].

Definition blank_shooting : MultipleShooting :=
  mkShooting empty_program 0 0 0 false 0%Q [] [] [].

(** The object before its constructor has run. *)
Definition blank : HybridDircon :=
  mkHybrid blank_shooting (mkTree 0 0 0) 0 [] [] [] [] [] [] [] [] [].

Definition set_ms_base (p : MathematicalProgram) (s : MultipleShooting)
  : MultipleShooting :=
  mkShooting p (num_inputs_ s) (num_states_ s) (N_ s)
    (timesteps_are_decision_variables_ s) (fixed_timestep_ s)
    (h_vars_ s) (x_vars_ s) (u_vars_ s).

Definition set_hd_base (b : MultipleShooting) (o : HybridDircon) : HybridDircon :=
  mkHybrid b (tree_ o) (num_modes_ o) (mode_lengths_ o) (mode_start_ o)
    (constraints_ o) (num_kinematic_constraints_ o) (force_vars_ o)
    (collocation_force_vars_ o) (collocation_slack_vars_ o) (offset_vars_ o)
    (v_post_impact_vars_ o).

Definition set_tree_ (t : RigidBodyTree) (o : HybridDircon) : HybridDircon :=
  mkHybrid (hd_base o) t (num_modes_ o) (mode_lengths_ o) (mode_start_ o)
    (constraints_ o) (num_kinematic_constraints_ o) (force_vars_ o)
    (collocation_force_vars_ o) (collocation_slack_vars_ o) (offset_vars_ o)
    (v_post_impact_vars_ o).

Definition set_modes_ (n : Z) (lengths : list Z) (o : HybridDircon)
  : HybridDircon :=
  mkHybrid (hd_base o) (tree_ o) n lengths (mode_start_ o)
    (constraints_ o) (num_kinematic_constraints_ o) (force_vars_ o)
    (collocation_force_vars_ o) (collocation_slack_vars_ o) (offset_vars_ o)
    (v_post_impact_vars_ o).

Definition set_mode_start_ (v : list Z) (o : HybridDircon) : HybridDircon :=
  mkHybrid (hd_base o) (tree_ o) (num_modes_ o) (mode_lengths_ o) v
    (constraints_ o) (num_kinematic_constraints_ o) (force_vars_ o)
    (collocation_force_vars_ o) (collocation_slack_vars_ o) (offset_vars_ o)
    (v_post_impact_vars_ o).

Definition set_constraints_ (v : list DirconKinematicDataSet) (o : HybridDircon)
  : HybridDircon :=
  mkHybrid (hd_base o) (tree_ o) (num_modes_ o) (mode_lengths_ o) (mode_start_ o)
    v (num_kinematic_constraints_ o) (force_vars_ o)
    (collocation_force_vars_ o) (collocation_slack_vars_ o) (offset_vars_ o)
    (v_post_impact_vars_ o).

Definition set_num_kinematic_constraints_ (v : list Z) (o : HybridDircon)
  : HybridDircon :=
  mkHybrid (hd_base o) (tree_ o) (num_modes_ o) (mode_lengths_ o) (mode_start_ o)
    (constraints_ o) v (force_vars_ o)
    (collocation_force_vars_ o) (collocation_slack_vars_ o) (offset_vars_ o)
    (v_post_impact_vars_ o).

Definition set_force_vars_ (v : list VectorXDecisionVariable) (o : HybridDircon)
  : HybridDircon :=
  mkHybrid (hd_base o) (tree_ o) (num_modes_ o) (mode_lengths_ o) (mode_start_ o)
    (constraints_ o) (num_kinematic_constraints_ o) v
    (collocation_force_vars_ o) (collocation_slack_vars_ o) (offset_vars_ o)
    (v_post_impact_vars_ o).

Definition set_collocation_force_vars_ (v : list VectorXDecisionVariable)
    (o : HybridDircon) : HybridDircon :=
  mkHybrid (hd_base o) (tree_ o) (num_modes_ o) (mode_lengths_ o) (mode_start_ o)
    (constraints_ o) (num_kinematic_constraints_ o) (force_vars_ o)
    v (collocation_slack_vars_ o) (offset_vars_ o)
    (v_post_impact_vars_ o).

Definition set_collocation_slack_vars_ (v : list VectorXDecisionVariable)
    (o : HybridDircon) : HybridDircon :=
  mkHybrid (hd_base o) (tree_ o) (num_modes_ o) (mode_lengths_ o) (mode_start_ o)
    (constraints_ o) (num_kinematic_constraints_ o) (force_vars_ o)
    (collocation_force_vars_ o) v (offset_vars_ o)
    (v_post_impact_vars_ o).

Definition set_offset_vars_ (v : list VectorXDecisionVariable) (o : HybridDircon)
  : HybridDircon :=
  mkHybrid (hd_base o) (tree_ o) (num_modes_ o) (mode_lengths_ o) (mode_start_ o)
    (constraints_ o) (num_kinematic_constraints_ o) (force_vars_ o)
    (collocation_force_vars_ o) (collocation_slack_vars_ o) v
    (v_post_impact_vars_ o).

Definition set_v_post_impact_vars_ (v : VectorXDecisionVariable) (o : HybridDircon)
  : HybridDircon :=
  mkHybrid (hd_base o) (tree_ o) (num_modes_ o) (mode_lengths_ o) (mode_start_ o)
    (constraints_ o) (num_kinematic_constraints_ o) (force_vars_ o)
    (collocation_force_vars_ o) (collocation_slack_vars_ o) (offset_vars_ o)
    v.

(** The program, the shooting base and the transcription itself, each seen
    from the transcription object. *)
Definition program (o : HybridDircon) : MathematicalProgram := ms_base (hd_base o).

Definition set_program (p : MathematicalProgram) (o : HybridDircon) : HybridDircon :=
  set_hd_base (set_ms_base p (hd_base o)) o.

Definition in_program {A : Type} (m : M MathematicalProgram A) : M HybridDircon A :=
  zoom program set_program m.

Definition in_shooting {A : Type} (m : M MultipleShooting A) : M HybridDircon A :=
  zoom hd_base set_hd_base m.

(** ** MathematicalProgram operations *)

Module Program.

(** [NewContinuousVariables(rows, name)]: [rows] fresh variables, appended
    to the program's variable vector, each with an unset initial guess. *)
Definition NewContinuousVariables (rows : Z) (name : string)
  : M MathematicalProgram VectorXDecisionVariable :=
  fun p =>
    if rows <? 0 then (Abort "negative number of variables", p)
    else
      let first := length (decision_variables_ p) in
      let vs := map (fun r => mkVariable (first + r) name r)
                    (seq 0 (Z.to_nat rows)) in
      (Done vs,
       mkProg (decision_variables_ p ++ vs)
              (x_initial_guess_ p ++ replicate (Z.to_nat rows) None)
              (bindings_ p) (costs_ p)).

(** [AddConstraint(c, vars)] *)
Definition AddConstraint (c : Constraint) (vars : VectorXDecisionVariable)
  : M MathematicalProgram unit :=
  modify (fun p =>
    mkProg (decision_variables_ p) (x_initial_guess_ p)
           (bindings_ p ++ [mkBinding c vars]) (costs_ p)).

(** [AddBoundingBoxConstraint(lb, ub, vars)] *)
Definition AddBoundingBoxConstraint (lb ub : Q) (vars : VectorXDecisionVariable)
  : M MathematicalProgram unit :=
  AddConstraint (BoundingBoxConstraint lb ub) vars.

(** [AddLinearConstraint(a == b)] for two one-variable blocks. *)
Definition AddLinearConstraint_eq (a b : VectorXDecisionVariable)
  : M MathematicalProgram unit :=
  AddConstraint LinearEqualityConstraint (a ++ b).

(** [AddCost(e)] *)
Definition AddCost (e : Expression) : M MathematicalProgram unit :=
  modify (fun p =>
    mkProg (decision_variables_ p) (x_initial_guess_ p)
           (bindings_ p) (costs_ p ++ [ExpressionCost e])).

(** [AddL2NormCost(A, b, vars)] with [A] the identity and [b] zero of
    dimension [dim]. *)
Definition AddL2NormCost (dim : Z) (vars : VectorXDecisionVariable)
  : M MathematicalProgram unit :=
  modify (fun p =>
    mkProg (decision_variables_ p) (x_initial_guess_ p)
           (bindings_ p) (costs_ p ++ [L2NormCost dim vars])).

(** [GetInitialGuess(v)] *)
Definition GetInitialGuess (v : DecisionVariable)
  : M MathematicalProgram (option Q) :=
  let* g := gets x_initial_guess_ in
  lift (vec_at g (Z.of_nat (var_id v))).

(** [SetInitialGuess(vars, values)]: the two have the same size, and each
    variable's guess is overwritten. *)
Definition SetInitialGuess (vars : VectorXDecisionVariable) (values : list Q)
  : M MathematicalProgram unit :=
  if negb (length vars =? length values)%nat
  then abort "SetInitialGuess: size mismatch"
  else
    modify (fun p =>
      mkProg (decision_variables_ p)
             (fold_left (fun g vx => <[var_id (fst vx) := Some (snd vx)]> g)
                        (combine vars values) (x_initial_guess_ p))
             (bindings_ p) (costs_ p)).

End Program.

(** [DRAKE_ASSERT(cond)] *)
Definition DRAKE_ASSERT {S : Type} (cond : bool) (what : string) : M S unit :=
  if cond then ret tt else abort what.

(** [DRAKE_DEMAND(cond)] *)
Definition DRAKE_DEMAND {S : Type} (cond : bool) (what : string) : M S unit :=
  if cond then ret tt else abort what.

(** ** MultipleShooting: the base class *)

Module Shooting.

Definition in_base {A : Type} (m : M MathematicalProgram A) : M MultipleShooting A :=
  zoom ms_base set_ms_base m.

(** The constructor taking a timestep range: the timesteps are decision
    variables.  The members are initialised in order (the timestep block
    "h" of N-1 variables, the state block "x" of num_states*N, the input
    block "u" of num_inputs*N), then the arguments are checked and the
    range is imposed on every timestep. *)
Definition ctor (num_inputs num_states num_time_samples : Z)
    (minimum_timestep maximum_timestep : Q) : M MultipleShooting unit :=
  modify (fun s =>
    mkShooting (ms_base s) num_inputs num_states num_time_samples true 0%Q
               [] [] []) >>
  let* h := in_base (Program.NewContinuousVariables (num_time_samples - 1) "h") in
  modify (fun s =>
    mkShooting (ms_base s) (num_inputs_ s) (num_states_ s) (N_ s)
               (timesteps_are_decision_variables_ s) (fixed_timestep_ s)
               h (x_vars_ s) (u_vars_ s)) >>
  let* x := in_base (Program.NewContinuousVariables
                       (num_states * num_time_samples) "x") in
  modify (fun s =>
    mkShooting (ms_base s) (num_inputs_ s) (num_states_ s) (N_ s)
               (timesteps_are_decision_variables_ s) (fixed_timestep_ s)
               (h_vars_ s) x (u_vars_ s)) >>
  let* u := in_base (Program.NewContinuousVariables
                       (num_inputs * num_time_samples) "u") in
  modify (fun s =>
    mkShooting (ms_base s) (num_inputs_ s) (num_states_ s) (N_ s)
               (timesteps_are_decision_variables_ s) (fixed_timestep_ s)
               (h_vars_ s) (x_vars_ s) u) >>
  DRAKE_DEMAND (1 <? num_time_samples) "num_time_samples > 1" >>
  DRAKE_DEMAND (0 <? num_states) "num_states_ > 0" >>
  DRAKE_DEMAND (0 <=? num_inputs) "num_inputs_ >= 0" >>
  DRAKE_DEMAND (negb (Qle_bool minimum_timestep 0)) "minimum_timestep > 0" >>
  DRAKE_DEMAND (Qle_bool minimum_timestep maximum_timestep)
               "maximum_timestep >= minimum_timestep" >>
  in_base (Program.AddBoundingBoxConstraint minimum_timestep maximum_timestep h).

(** [timestep(index)] *)
Definition timestep (index : Z) : M MultipleShooting VectorXDecisionVariable :=
  let* dv := gets timesteps_are_decision_variables_ in
  if negb dv then abort "timesteps are not decision variables"
  else
    let* h := gets h_vars_ in
    lift (segment h index 1).

(** [state(index)]: the state block of knot [index]. *)
Definition state (index : Z) : M MultipleShooting VectorXDecisionVariable :=
  let* x := gets x_vars_ in
  let* n := gets num_states_ in
  lift (segment x (index * n) n).

(** [input(index)]: the input block of knot [index]. *)
Definition input (index : Z) : M MultipleShooting VectorXDecisionVariable :=
  let* u := gets u_vars_ in
  let* n := gets num_inputs_ in
  lift (segment u (index * n) n).

(** [e.Substitute(sub)] for a substitution of the three placeholders. *)
Fixpoint Substitute (time : Expression) (xs us : VectorXDecisionVariable)
    (e : Expression) : Expression :=
  match e with
  | EConst c => EConst c
  | EVar v => EVar v
  | EPlaceholder_t => time
  | EPlaceholder_x i =>
      match xs !! i with Some v => EVar v | None => EPlaceholder_x i end
  | EPlaceholder_u i =>
      match us !! i with Some v => EVar v | None => EPlaceholder_u i end
  | EAdd a b => EAdd (Substitute time xs us a) (Substitute time xs us b)
  | EMul a b => EMul (Substitute time xs us a) (Substitute time xs us b)
  | EDiv a b => EDiv (Substitute time xs us a) (Substitute time xs us b)
  end.

(** [SubstitutePlaceholderVariables(e, interval_index)]: the time
    placeholder becomes the sum of the timesteps before the knot, the state
    and input placeholders become the knot's state and input variables. *)
Definition SubstitutePlaceholderVariables (e : Expression) (interval_index : Z)
  : M MultipleShooting Expression :=
  let* dv := gets timesteps_are_decision_variables_ in
  let* h := gets h_vars_ in
  let* dt := gets fixed_timestep_ in
  let* head := lift (segment h 0 (if dv then interval_index else 0)) in
  let time :=
    if dv then fold_left (fun acc v => EAdd acc (EVar v)) head (EConst 0%Q)
    else EMul (EConst (inject_Z interval_index)) (EConst dt) in
  let* xs := state interval_index in
  let* us := input interval_index in
  ret (Substitute time xs us e).

End Shooting.

(** An assignment of values to the decision variables and to the
    placeholders. *)
Record valuation : Type := mkValuation {
  val_var : DecisionVariable -> Q;
  val_t : Q;
  val_x : nat -> Q;
  val_u : nat -> Q
}.

(** The value of an expression under a valuation. *)
Fixpoint eval (env : valuation) (e : Expression) : Q :=
  match e with
  | EConst c => c
  | EVar v => val_var env v
  | EPlaceholder_t => val_t env
  | EPlaceholder_x i => val_x env i
  | EPlaceholder_u i => val_u env i
  | EAdd a b => eval env a + eval env b
  | EMul a b => eval env a * eval env b
  | EDiv a b => eval env a / eval env b
  end%Q.

(** ** HybridDircon: accessors *)

Definition num_states : M HybridDircon Z := in_shooting (gets num_states_).
Definition num_inputs : M HybridDircon Z := in_shooting (gets num_inputs_).
Definition N : M HybridDircon Z := in_shooting (gets N_).
Definition h_vars : M HybridDircon VectorXDecisionVariable := in_shooting (gets h_vars_).
Definition x_vars : M HybridDircon VectorXDecisionVariable := in_shooting (gets x_vars_).
Definition u_vars : M HybridDircon VectorXDecisionVariable := in_shooting (gets u_vars_).
Definition timestep (index : Z) : M HybridDircon VectorXDecisionVariable :=
  in_shooting (Shooting.timestep index).
Definition state (index : Z) : M HybridDircon VectorXDecisionVariable :=
  in_shooting (Shooting.state index).
Definition input (index : Z) : M HybridDircon VectorXDecisionVariable :=
  in_shooting (Shooting.input index).

(** [member_[i]] for a member that is a vector. *)
Definition member_at {A : Type} (member : HybridDircon -> list A) (i : Z)
  : M HybridDircon A :=
  let* v := gets member in lift (vec_at v i).

(** Modelled from the spec: the per-mode accessors are declared in
    hybrid_dircon.h, outside this file; each returns the
    mode's entry of the member it is named after, and [force(mode, index)]
    is the force sub-block the knot [index] of the mode owns. *)
Definition num_kinematic_constraints (mode : Z) : M HybridDircon Z :=
  member_at num_kinematic_constraints_ mode.

(** Modelled from the spec: [force_vars(mode)] of hybrid_dircon.h. *)
Definition force_vars (mode : Z) : M HybridDircon VectorXDecisionVariable :=
  member_at force_vars_ mode.

(** Modelled from the spec: [collocation_force_vars(mode)] of hybrid_dircon.h. *)
Definition collocation_force_vars (mode : Z) : M HybridDircon VectorXDecisionVariable :=
  member_at collocation_force_vars_ mode.

(** Modelled from the spec: [collocation_slack_vars(mode)] of hybrid_dircon.h. *)
Definition collocation_slack_vars (mode : Z) : M HybridDircon VectorXDecisionVariable :=
  member_at collocation_slack_vars_ mode.

(** Modelled from the spec: [offset_vars(mode)] of hybrid_dircon.h. *)
Definition offset_vars (mode : Z) : M HybridDircon VectorXDecisionVariable :=
  member_at offset_vars_ mode.

(** Modelled from the spec: [force(mode, index)] of hybrid_dircon.h, the
    force sub-block that knot [index] of the mode owns. *)
Definition force (mode index : Z) : M HybridDircon VectorXDecisionVariable :=
  let* fv := force_vars mode in
  let* n := num_kinematic_constraints mode in
  lift (segment fv (index * n) n).

(** [v_post_impact_vars_by_mode(mode)] *)
Definition v_post_impact_vars_by_mode (mode : Z)
  : M HybridDircon VectorXDecisionVariable :=
  let* vp := gets v_post_impact_vars_ in
  let* tree := gets tree_ in
  lift (segment vp (int_wrap (mode * get_num_velocities tree))
                (get_num_velocities tree)).

(** [state_vars_by_mode(mode, time_index)].  In both branches [ret] is
    declared without a size, so it has no rows when the comma initialiser
    writes into it; the operands are evaluated from left to right, each
    written before the next is evaluated. *)
Definition state_vars_by_mode (mode time_index : Z)
  : M HybridDircon VectorXDecisionVariable :=
  if (time_index =? 0) && (0 <? mode) then
    let ret : VectorXDecisionVariable := [] in
    let* x := x_vars in
    let* start := member_at mode_start_ mode in
    let* tree := gets tree_ in
    let* q := lift (segment x (start + time_index) (get_num_positions tree)) in
    let* written := lift (comma_write (size ret) [] q) in
    let* v := v_post_impact_vars_by_mode mode in
    let* written := lift (comma_write (size ret) written v) in
    let* ret := lift (comma_finished (size ret) written) in
    let* n := num_states in
    lift (segment ret 0 n)
  else
    let ret : VectorXDecisionVariable := [] in
    let* x := x_vars in
    let* start := member_at mode_start_ mode in
    let* n := num_states in
    let* b := lift (segment x (start + time_index) n) in
    let* written := lift (comma_write (size ret) [] b) in
    let* ret := lift (comma_finished (size ret) written) in
    lift (segment ret 0 n).

(** ** HybridDircon: the constructor *)

(** The arguments of the constructor. *)
Record Arguments_ : Type := mkArguments {
  arg_tree : RigidBodyTree;
  arg_num_time_samples : list Z;
  arg_minimum_timestep : list Q;
  arg_maximum_timestep : list Q;
  arg_constraints : list DirconKinematicDataSet;
  arg_options : list DirconOptions
}.

Section Constructor.

Variable a : Arguments_.

Let tree := arg_tree a.

(** "set timestep bounds" *)
Definition set_timestep_bounds (i : Z) : M HybridDircon unit :=
  let* len := member_at mode_lengths_ i in
  for_loop 0 len (fun j =>
    let* lo := lift (vec_at (arg_minimum_timestep a) i) in
    let* hi := lift (vec_at (arg_maximum_timestep a) i) in
    let* t := timestep j in
    in_program (Program.AddBoundingBoxConstraint lo hi t)) >>
  for_loop 0 (len - 1) (fun j =>
    let* t0 := timestep j in
    let* t1 := timestep (j + 1) in
    in_program (Program.AddLinearConstraint_eq t0 t1)).

(** "initialize constraint lengths" and "initialize decision variables" *)
Definition initialize_decision_variables (i : Z) : M HybridDircon unit :=
  let* ds := member_at constraints_ i in
  let* nkc := gets num_kinematic_constraints_ in
  modify (set_num_kinematic_constraints_ (nkc ++ [countConstraints ds])) >>
  let* n := lift (vec_at (arg_num_time_samples a) i) in
  let* l := in_program (Program.NewContinuousVariables
              (int_wrap (countConstraints ds * n))
              ("lambda[" ++ to_string i ++ "]")) in
  let* fv := gets force_vars_ in
  modify (set_force_vars_ (fv ++ [l])) >>
  let* lc := in_program (Program.NewContinuousVariables
              (int_wrap (countConstraints ds * (n - 1)))
              ("lambda_c[" ++ to_string i ++ "]")) in
  let* cfv := gets collocation_force_vars_ in
  modify (set_collocation_force_vars_ (cfv ++ [lc])) >>
  let* vc := in_program (Program.NewContinuousVariables
              (int_wrap (countConstraints ds * (n - 1)))
              ("v_c[" ++ to_string i ++ "]")) in
  let* csv := gets collocation_slack_vars_ in
  modify (set_collocation_slack_vars_ (csv ++ [vc])) >>
  let* opt := lift (vec_at (arg_options a) i) in
  let* off := in_program (Program.NewContinuousVariables
              (getNumRelative opt) ("offset[" ++ to_string i ++ "]")) in
  let* ov := gets offset_vars_ in
  modify (set_offset_vars_ (ov ++ [off])) >>
  let* vp := in_program (Program.NewContinuousVariables
              (get_num_velocities tree) "v_p") in
  modify (set_v_post_impact_vars_ vp).

(** "Adding dynamic constraints" *)
Definition add_dynamic_constraints (i : Z) : M HybridDircon unit :=
  let* ds := member_at constraints_ i in
  let constraint := mkDynamic tree ds in
  let* ns := num_states in
  DRAKE_ASSERT (num_constraints constraint =? ns)
               "constraint->num_constraints() == num_states()" >>
  let* len := member_at mode_lengths_ i in
  for_loop 0 (len - 1) (fun j =>
    let* start := member_at mode_start_ i in
    let time_index := start + j in
    let* hv := h_vars in
    let* h := lift (segment hv time_index 1) in
    let* x0 := state_vars_by_mode i j in
    let* x1 := state_vars_by_mode i (j + 1) in
    let* uv := u_vars in
    let* nu := num_inputs in
    let* u := lift (segment uv (time_index * nu) (nu * 2)) in
    let* fv := force_vars i in
    let* nc := num_kinematic_constraints i in
    let* l := lift (segment fv (j * nc) (nc * 2)) in
    let* cfv := collocation_force_vars i in
    let* lc := lift (segment cfv (j * nc) nc) in
    let* csv := collocation_slack_vars i in
    let* vc := lift (segment csv (j * nc) nc) in
    in_program (Program.AddConstraint (DynamicConstraint constraint)
                  (h ++ x0 ++ x1 ++ u ++ l ++ lc ++ vc))).

(** "Adding kinematic constraints", with the "special case first and last
    timestep based on options". *)
Definition add_kinematic_constraints (i : Z) : M HybridDircon unit :=
  let* ds := member_at constraints_ i in
  let* opt := lift (vec_at (arg_options a) i) in
  let kinematic_constraint :=
    mkKinematic tree ds (getConstraintsRelative opt) None in
  let* len := member_at mode_lengths_ i in
  for_loop 1 (len - 1) (fun j =>
    let* start := member_at mode_start_ i in
    let time_index := start + j in
    let* x := state_vars_by_mode i j in
    let* uv := u_vars in
    let* nu := num_inputs in
    let* u := lift (segment uv (time_index * nu) nu) in
    let* fv := force_vars i in
    let* nc := num_kinematic_constraints i in
    let* l := lift (segment fv (j * nc) nc) in
    let* off := offset_vars i in
    in_program (Program.AddConstraint (KinematicConstraint kinematic_constraint)
                  (x ++ u ++ l ++ off))) >>
  let* opt := lift (vec_at (arg_options a) i) in
  let kinematic_constraint_start :=
    mkKinematic tree ds (getConstraintsRelative opt) (Some (getStartType opt)) in
  let* x := state_vars_by_mode i 0 in
  let* uv := u_vars in
  let* start := member_at mode_start_ i in
  let* nu := num_inputs in
  let* u := lift (segment uv start nu) in
  let* fv := force_vars i in
  let* nc := num_kinematic_constraints i in
  let* l := lift (segment fv 0 nc) in
  let* off := offset_vars i in
  in_program (Program.AddConstraint (KinematicConstraint kinematic_constraint_start)
                (x ++ u ++ l ++ off)) >>
  let kinematic_constraint_end :=
    mkKinematic tree ds (getConstraintsRelative opt) (Some (getEndType opt)) in
  let* x := state_vars_by_mode i (len - 1) in
  let* u := lift (segment uv ((start + len - 1) * nu) nu) in
  let* l := lift (segment fv ((len - 1) * nc) nc) in
  in_program (Program.AddConstraint (KinematicConstraint kinematic_constraint_end)
                (x ++ u ++ l ++ off)).

(** "Add constraints on force variables" *)
Definition add_force_constraints (i : Z) : M HybridDircon unit :=
  let* len := member_at mode_lengths_ i in
  for_loop 0 (len - 1) (fun l =>
    let* nc := num_kinematic_constraints i in
    let* ds := member_at constraints_ i in
    for_loop_acc 0 (getNumConstraintObjects ds) (l * nc)
      (fun j start_index =>
        let* constraint_j := lift (getConstraint ds j) in
        let start_index := start_index + getLength constraint_j in
        for_loop 0 (numForceConstraints constraint_j) (fun k =>
          let* fv := force_vars i in
          let* block := lift (segment fv start_index (getLength constraint_j)) in
          in_program (Program.AddConstraint (ForceConstraint constraint_j k) block)) >>
        ret start_index) >>
    ret tt).

(** "Force cost option" *)
Definition add_force_cost (i : Z) : M HybridDircon unit :=
  let* opt := lift (vec_at (arg_options a) i) in
  if negb (Qeq_bool (getForceCost opt) 0) then
    let* nc := num_kinematic_constraints i in
    let* len := member_at mode_lengths_ i in
    for_loop 0 len (fun j =>
      let* f := force i j in
      in_program (Program.AddL2NormCost nc f))
  else ret tt.

(** One turn of the loop over the modes; the result is the new value of
    the local [counter]. *)
Definition mode_body (i counter : Z) : M HybridDircon Z :=
  let* starts := gets mode_start_ in
  modify (set_mode_start_ (starts ++ [counter])) >>
  set_timestep_bounds i >>
  initialize_decision_variables i >>
  add_dynamic_constraints i >>
  add_kinematic_constraints i >>
  add_force_constraints i >>
  add_force_cost i >>
  let* len := member_at mode_lengths_ i in
  ret (counter + len).

(** The constructor: the base class, the member initialisers, the three
    size assertions and the loop over the modes. *)
Definition construct : M HybridDircon unit :=
  in_shooting (Shooting.ctor (get_num_actuators tree)
                 (get_num_positions tree + get_num_velocities tree)
                 (accumulate (arg_num_time_samples a))
                 (1 # 100000000)%Q (100000000 # 1)%Q) >>
  modify (set_modes_ (size (arg_num_time_samples a)) (arg_num_time_samples a)) >>
  let* num_modes := gets num_modes_ in
  DRAKE_ASSERT (size (arg_minimum_timestep a) =? num_modes)
               "minimum_timestep.size() == num_modes_" >>
  DRAKE_ASSERT (size (arg_maximum_timestep a) =? num_modes)
               "maximum_timestep.size() == num_modes_" >>
  DRAKE_ASSERT (size (arg_constraints a) =? num_modes)
               "constraints.size() == num_modes_" >>
  modify (set_tree_ tree) >>
  modify (set_constraints_ (arg_constraints a)) >>
  for_loop_acc 0 num_modes 0 (fun i counter => mode_body i counter) >>
  ret tt.

End Constructor.

(** [HybridDircon<T>::HybridDircon(tree, num_time_samples, minimum_timestep,
    maximum_timestep, constraints, options)]: how the constructor ended and
    the object it had built by then. *)
Definition HybridDircon_ctor (a : Arguments_) : outcome unit * HybridDircon :=
  construct a blank.

(** ** HybridDircon: the running cost *)

(** [DoAddRunningCost(g)] *)
Definition DoAddRunningCost (g : Expression) : M HybridDircon unit :=
  let* h := h_vars in
  let* h0 := lift (vec_at h 0) in
  let* e0 := in_shooting (Shooting.SubstitutePlaceholderVariables
                            (EDiv (EMul g (EVar h0)) (EConst 2)) 0) in
  in_program (Program.AddCost (EMul (EConst (1 # 2)) e0)) >>
  let* n := N in
  for_loop 1 (n - 2) (fun i =>
    let* hm := lift (vec_at h (i - 1)) in
    let* hi := lift (vec_at h i) in
    let* e := in_shooting (Shooting.SubstitutePlaceholderVariables
                (EDiv (EMul g (EAdd (EVar hm) (EVar hi))) (EConst 2)) i) in
    in_program (Program.AddCost e)) >>
  let* hl := lift (vec_at h (n - 2)) in
  let* el := in_shooting (Shooting.SubstitutePlaceholderVariables
                            (EDiv (EMul g (EVar hl)) (EConst 2)) (n - 1)) in
  in_program (Program.AddCost (EMul (EConst (1 # 2)) el)).

(** The value of one cost under a valuation (the squared norm of the
    variables for the L2 cost with identity weight). *)
Definition cost_value (env : valuation) (c : Cost) : Q :=
  match c with
  | ExpressionCost e => eval env e
  | L2NormCost _ vars =>
      fold_right (fun v acc => val_var env v * val_var env v + acc)%Q 0%Q vars
  end.

(** The objective: the sum of the costs added to the program. *)
Definition total_cost (env : valuation) (p : MathematicalProgram) : Q :=
  fold_right (fun c acc => cost_value env c + acc)%Q 0%Q (costs_ p).

(** ** HybridDircon: seeding the force variables *)

(** A [PiecewisePolynomial<double>] handed to the transcription is read
    through [empty()] and [value(t)] only; the time is [None] when it is the
    NaN of a timestep whose guess was never set. *)
Record PiecewisePolynomialFn : Type := mkTrajectory {
  empty : bool;
  value : option Q -> list Q
}.

(** [v.segment(start, n) = x]: the block must lie in [v] and [x] must have
    [n] rows. *)
Definition set_segment {A : Type} (v : list A) (start n : Z) (x : list A)
  : outcome (list A) :=
  if (0 <=? start) && (0 <=? n) && (start + n <=? size v) && (size x =? n)
  then Done (take (Z.to_nat start) v ++ x ++ drop (Z.to_nat (start + n)) v)
  else Abort "segment assignment out of range".

(** [SetInitialForceTrajectory(mode, traj_init_l, traj_init_lc, traj_init_vc)].
    (A vector created by [VectorXd guess(n)] holds indeterminate values
    until it is written; they are zeros here.) *)
Definition SetInitialForceTrajectory (mode : Z)
    (traj_init_l traj_init_lc traj_init_vc : PiecewisePolynomialFn)
  : M HybridDircon unit :=
  let start_time := 0%Q in
  let* dv := in_shooting (gets timesteps_are_decision_variables_) in
  let* h :=
    if dv then
      let* hv := h_vars in
      let* h0 := lift (vec_at hv 0) in
      in_program (Program.GetInitialGuess h0)
    else
      let* dt := in_shooting (gets fixed_timestep_) in ret (Some dt) in
  let* n := N in

  let* fv := member_at force_vars_ mode in
  let guess_force := replicate (length fv) 0%Q in
  let* guess_force :=
    if empty traj_init_l then ret (replicate (length fv) 0%Q)
    else for_loop_acc 0 n guess_force (fun i guess_force =>
           let* nc := member_at num_kinematic_constraints_ mode in
           lift (set_segment guess_force (nc * i) nc
                   (value traj_init_l
                      (option_map (fun h => start_time + inject_Z i * h)%Q h)))) in
  in_program (Program.SetInitialGuess fv guess_force) >>

  let* cfv := member_at collocation_force_vars_ mode in
  let guess_collocation_force := replicate (length cfv) 0%Q in
  let* guess_collocation_force :=
    if empty traj_init_lc then ret (replicate (length cfv) 0%Q)
    else for_loop_acc 0 (n - 1) guess_collocation_force
           (fun i guess_collocation_force =>
           let* nc := member_at num_kinematic_constraints_ mode in
           lift (set_segment guess_collocation_force (nc * i) nc
                   (value traj_init_lc
                      (option_map
                         (fun h => start_time + (inject_Z i + (1 # 2)) * h)%Q h)))) in
  in_program (Program.SetInitialGuess cfv guess_collocation_force) >>

  let* csv := member_at collocation_slack_vars_ mode in
  let guess_collocation_slack := replicate (length csv) 0%Q in
  let* guess_collocation_slack :=
    if empty traj_init_vc then ret (replicate (length csv) 0%Q)
    else for_loop_acc 0 (n - 1) guess_collocation_slack
           (fun i guess_collocation_slack =>
           let* nc := member_at num_kinematic_constraints_ mode in
           lift (set_segment guess_collocation_slack (nc * i) nc
                   (value traj_init_vc
                      (option_map
                         (fun h => start_time + (inject_Z i + (1 # 2)) * h)%Q h)))) in
  in_program (Program.SetInitialGuess csv guess_collocation_slack).

(** ** HybridDircon: reconstructing the trajectories *)

(** What [PiecewisePolynomial<double>::FirstOrderHold(breaks, knots)] and
    [PiecewisePolynomial<double>::Cubic(breaks, knots, knots_dot)] are built
    from: the first interpolates the knots linearly, the second is the cubic
    Hermite spline taking the value [knots[k]] and the derivative
    [knots_dot[k]] at [breaks[k]]. *)
Inductive PiecewisePolynomial : Type :=
| FirstOrderHold (breaks : list Q) (knots : list (list Q))
| Cubic (breaks : list Q) (knots knots_dot : list (list Q)).

(** [v[i] = x] for a [std::vector]. *)
Definition vec_set {A : Type} (v : list A) (i : Z) (x : A) : outcome (list A) :=
  if (0 <=? i) && (i <? size v) then Done (<[Z.to_nat i := x]> v)
  else Abort "index out of range".

(** [std::vector<_> v(n)] *)
Definition vec_new {A : Type} (n : Z) (x : A) : outcome (list A) :=
  if n <? 0 then Abort "negative size" else Done (replicate (Z.to_nat n) x).

(** The local vectors of [ReconstructStateTrajectory], and the evaluation
    cache of every constraint set (by address): [updateData] writes it,
    [getXDot] reads it. *)
Record Locals (XDot : Type) : Type := mkLocals {
  times_vec : list Q;
  states : list (list Q);
  inputs : list (list Q);
  forces : list (list Q);
  derivatives : list (list Q);
  xdot_cache : nat -> option XDot
}.
Arguments mkLocals {XDot}.
Arguments times_vec {XDot}.
Arguments states {XDot}.
Arguments inputs {XDot}.
Arguments forces {XDot}.
Arguments derivatives {XDot}.
Arguments xdot_cache {XDot}.

Section Reconstruction.

(** [VectorX<T>], the value [getXDot()] returns. *)
Variable XDot : Type.

(** The constrained dynamics of a constraint set: the state derivative
    that [updateData(x, u, l)] computes and caches. *)
Variable constrained_dynamics :
  DirconKinematicDataSet -> list Q -> list Q -> list Q -> XDot.

(** [math::DiscardGradient] *)
Variable DiscardGradient : XDot -> list Q.

(** The solver's result. *)
Variable solution : DecisionVariable -> Q.

(** The (const) object the methods are called on. *)
Variable obj : HybridDircon.

Definition GetSolution (vars : VectorXDecisionVariable) : list Q :=
  map solution vars.

(** A read of the object from inside a method with local state. *)
Definition read {L A : Type} (m : M HybridDircon A) : M L A :=
  lift (fst (m obj)).

(** [GetSampleTimes()]: the first knot is at time 0, every further knot
    one solved timestep later. *)
Definition GetSampleTimes : outcome (list Q) :=
  fst ((let* n := read N in
        let* times := lift (vec_new n 0%Q) in
        let* times := lift (vec_set times 0 0%Q) in
        let* h := read h_vars in
        for_loop_acc 1 n times (fun i times =>
          let* prev := lift (vec_at times (i - 1)) in
          let* hi := lift (vec_at h (i - 1)) in
          lift (vec_set times i (prev + solution hi)%Q))) tt).

(** [ReconstructInputTrajectory()] *)
Definition ReconstructInputTrajectory : outcome PiecewisePolynomial :=
  fst ((let* times := lift GetSampleTimes in
        let* n := read N in
        let* times_vec0 := lift (vec_new n 0%Q) in
        let* inputs0 := lift (vec_new n []) in
        let* r := for_loop_acc 0 n (times_vec0, inputs0) (fun i acc =>
          let* t := lift (vec_at times i) in
          let* tv := lift (vec_set (fst acc) i t) in
          let* ui := read (input i) in
          let* iv := lift (vec_set (snd acc) i (GetSolution ui)) in
          ret (tv, iv)) in
        ret (FirstOrderHold (fst r) (snd r))) tt).

Definition set_times_vec (v : list Q) (s : Locals XDot) : Locals XDot :=
  mkLocals v (states s) (inputs s) (forces s) (derivatives s) (xdot_cache s).
Definition set_states (v : list (list Q)) (s : Locals XDot) : Locals XDot :=
  mkLocals (times_vec s) v (inputs s) (forces s) (derivatives s) (xdot_cache s).
Definition set_inputs (v : list (list Q)) (s : Locals XDot) : Locals XDot :=
  mkLocals (times_vec s) (states s) v (forces s) (derivatives s) (xdot_cache s).
Definition set_forces (v : list (list Q)) (s : Locals XDot) : Locals XDot :=
  mkLocals (times_vec s) (states s) (inputs s) v (derivatives s) (xdot_cache s).
Definition set_derivatives (v : list (list Q)) (s : Locals XDot) : Locals XDot :=
  mkLocals (times_vec s) (states s) (inputs s) (forces s) v (xdot_cache s).

(** [local[k] = x] *)
Definition assign {A : Type} (get : Locals XDot -> list A)
    (set : list A -> Locals XDot -> Locals XDot) (k : Z) (x : A)
  : M (Locals XDot) unit :=
  let* v := gets get in
  let* v' := lift (vec_set v k x) in
  modify (set v').

(** [constraints->updateData(x, u, l)] *)
Definition updateData (ds : DirconKinematicDataSet) (x u l : list Q)
  : M (Locals XDot) unit :=
  modify (fun s =>
    mkLocals (times_vec s) (states s) (inputs s) (forces s) (derivatives s)
      (fun id => if (id =? ds_id ds)%nat
                 then Some (constrained_dynamics ds x u l)
                 else xdot_cache s id)).

(** [constraints->getXDot()] *)
Definition getXDot (ds : DirconKinematicDataSet) : M (Locals XDot) XDot :=
  let* c := gets xdot_cache in
  match c (ds_id ds) with
  | Some xd => ret xd
  | None => abort "getXDot before updateData"
  end.

(** The body of the two nested loops, at mode [i] and knot [j] of it. *)
Definition reconstruct_knot (times : list Q) (i j : Z) : M (Locals XDot) unit :=
  let* start := read (member_at mode_start_ i) in
  let k := start + j in
  let* t := lift (vec_at times k) in
  assign times_vec set_times_vec k t >>
  let* xk := read (state k) in
  assign states set_states k (GetSolution xk) >>
  let* uk := read (input k) in
  assign inputs set_inputs k (GetSolution uk) >>
  let* lk := read (force i j) in
  assign forces set_forces k (GetSolution lk) >>
  let* ds := read (member_at constraints_ i) in
  let* sx := gets states in
  let* x := lift (vec_at sx k) in
  let* su := gets inputs in
  let* u := lift (vec_at su k) in
  let* sl := gets forces in
  let* l := lift (vec_at sl k) in
  updateData ds x u l >>
  let* xd := getXDot ds in
  assign derivatives set_derivatives k (DiscardGradient xd).

(** [ReconstructStateTrajectory()], from the evaluation caches [cache] the
    constraint sets hold when it is called. *)
Definition ReconstructStateTrajectory (cache : nat -> option XDot)
  : outcome PiecewisePolynomial :=
  match GetSampleTimes, fst (N obj) with
  | Done times, Done n =>
      match vec_new n 0%Q, vec_new n ([] : list Q) with
      | Done tv, Done mv =>
          let run :=
            (let* num_modes := read (gets num_modes_) in
             for_loop 0 num_modes (fun i =>
               let* len := read (member_at mode_lengths_ i) in
               for_loop 0 len (fun j => reconstruct_knot times i j)))
              (mkLocals tv mv mv mv mv cache) in
          match fst run with
          | Done _ =>
              Done (Cubic (times_vec (snd run)) (states (snd run))
                          (derivatives (snd run)))
          | Abort w => Abort w
          end
      | Abort w, _ => Abort w
      | _, Abort w => Abort w
      end
  | Abort w, _ => Abort w
  | _, Abort w => Abort w
  end.

End Reconstruction.

(** * Reasoning about computations *)

(** [hoare P m Q R]: from a state satisfying [P], the computation [m] either
    finishes with a result and a state satisfying [Q], or stops in a state
    satisfying [R]. *)
Definition hoare {S A : Type} (P : S -> Prop) (m : M S A)
    (Q : A -> S -> Prop) (R : S -> Prop) : Prop :=
  forall s, P s ->
    match m s with
    | (Done x, s') => Q x s'
    | (Abort _, s') => R s'
    end.

(** [stable P m]: [P] survives [m], however [m] ends. *)
Definition stable {S A : Type} (P : S -> Prop) (m : M S A) : Prop :=
  hoare P m (fun _ => P) P.

Section HoareRules.

Context {S : Type}.

Lemma hoare_ret {A} (P : S -> Prop) (x : A) Q R :
  (forall s, P s -> Q x s) -> hoare P (ret x) Q R.
Proof. intros H s Hs. simpl. auto. Qed.

Lemma hoare_bind {A B} (P : S -> Prop) (m : M S A) (k : A -> M S B) Q1 Q R :
  hoare P m Q1 R ->
  (forall x, hoare (Q1 x) (k x) Q R) ->
  hoare P (bind m k) Q R.
Proof.
  intros Hm Hk s Hs. unfold bind. specialize (Hm s Hs).
  destruct (m s) as [[x | w] s']; [apply Hk; exact Hm | exact Hm].
Qed.

Lemma hoare_conseq {A} (P P' : S -> Prop) (m : M S A) (Q Q' : A -> S -> Prop) R R' :
  hoare P' m Q' R' ->
  (forall s, P s -> P' s) ->
  (forall x s, Q' x s -> Q x s) ->
  (forall s, R' s -> R s) ->
  hoare P m Q R.
Proof.
  intros H HP HQ HR s Hs. specialize (H s (HP s Hs)).
  destruct (m s) as [[x | w] s']; auto.
Qed.

Lemma hoare_gets {A} (P : S -> Prop) (f : S -> A) Q R :
  (forall s, P s -> Q (f s) s) -> hoare P (gets f) Q R.
Proof. intros H s Hs. simpl. auto. Qed.

Lemma hoare_modify (P : S -> Prop) (f : S -> S) Q R :
  (forall s, P s -> Q tt (f s)) -> hoare P (modify f) Q R.
Proof. intros H s Hs. simpl. auto. Qed.

Lemma hoare_lift {A} (P : S -> Prop) (o : outcome A) Q R :
  (forall s, P s -> match o with Done x => Q x s | Abort _ => R s end) ->
  hoare P (lift o) Q R.
Proof. intros H s Hs. specialize (H s Hs). unfold lift. destruct o; auto. Qed.

Lemma hoare_abort {A} (P : S -> Prop) w (Q : A -> S -> Prop) R :
  (forall s, P s -> R s) -> hoare P (abort w) Q R.
Proof. intros H s Hs. simpl. auto. Qed.

Lemma hoare_assert (P : S -> Prop) (c : bool) w Q R :
  (forall s, P s -> if c then Q tt s else R s) ->
  hoare P (DRAKE_ASSERT c w) Q R.
Proof. intros H s Hs. specialize (H s Hs). unfold DRAKE_ASSERT. destruct c; simpl; auto. Qed.

Lemma hoare_for_range (I : Z -> S -> Prop) R (body : Z -> M S unit) n :
  forall lo,
    (forall j, lo <= j < lo + Z.of_nat n ->
               hoare (I j) (body j) (fun _ => I (j + 1)) R) ->
    hoare (I lo) (for_range lo n body) (fun _ => I (lo + Z.of_nat n)) R.
Proof.
  induction n as [| m IH]; intros lo Hbody.
  - apply hoare_ret. intros s Hs. replace (lo + Z.of_nat 0) with lo by lia. exact Hs.
  - simpl for_range. eapply hoare_bind.
    + apply Hbody. lia.
    + intros u. eapply hoare_conseq.
      * apply (IH (lo + 1)). intros j Hj. apply Hbody. lia.
      * auto.
      * intros v s Hs.
        replace (lo + Z.of_nat (Datatypes.S m)) with (lo + 1 + Z.of_nat m) by lia.
        exact Hs.
      * auto.
Qed.

Lemma hoare_for_loop (I : Z -> S -> Prop) R (body : Z -> M S unit) lo hi :
  (forall j, lo <= j < hi -> hoare (I j) (body j) (fun _ => I (j + 1)) R) ->
  hoare (I lo) (for_loop lo hi body) (fun _ => I (Z.max lo hi)) R.
Proof.
  intros Hbody. unfold for_loop. eapply hoare_conseq.
  - apply hoare_for_range with (I := I). intros j Hj. apply Hbody. lia.
  - auto.
  - intros v s Hs. replace (Z.max lo hi) with (lo + Z.of_nat (Z.to_nat (hi - lo))) by lia.
    exact Hs.
  - auto.
Qed.

Lemma hoare_for_range_acc {L} (I : Z -> L -> S -> Prop) R
    (body : Z -> L -> M S L) n :
  forall lo acc,
    (forall j acc', lo <= j < lo + Z.of_nat n ->
                    hoare (I j acc') (body j acc') (fun acc'' => I (j + 1) acc'') R) ->
    hoare (I lo acc) (for_range_acc lo n acc body)
          (fun acc' => I (lo + Z.of_nat n) acc') R.
Proof.
  induction n as [| m IH]; intros lo acc Hbody.
  - apply hoare_ret. intros s Hs. replace (lo + Z.of_nat 0) with lo by lia. exact Hs.
  - simpl for_range_acc. eapply hoare_bind.
    + apply Hbody. lia.
    + intros acc'. eapply hoare_conseq.
      * apply (IH (lo + 1)). intros j acc'' Hj. apply Hbody. lia.
      * auto.
      * intros x s Hs.
        replace (lo + Z.of_nat (Datatypes.S m)) with (lo + 1 + Z.of_nat m) by lia.
        exact Hs.
      * auto.
Qed.

Lemma hoare_for_loop_acc {L} (I : Z -> L -> S -> Prop) R
    (body : Z -> L -> M S L) lo hi acc :
  (forall j acc', lo <= j < hi ->
                  hoare (I j acc') (body j acc') (fun acc'' => I (j + 1) acc'') R) ->
  hoare (I lo acc) (for_loop_acc lo hi acc body)
        (fun acc' => I (Z.max lo hi) acc') R.
Proof.
  intros Hbody. unfold for_loop_acc. eapply hoare_conseq.
  - apply hoare_for_range_acc with (I := I). intros j acc' Hj. apply Hbody. lia.
  - auto.
  - intros x s Hs. replace (Z.max lo hi) with (lo + Z.of_nat (Z.to_nat (hi - lo))) by lia.
    exact Hs.
  - auto.
Qed.

(** *** Stability *)

Lemma stable_ret {A} (P : S -> Prop) (x : A) : stable P (ret x).
Proof. apply hoare_ret. auto. Qed.

Lemma stable_bind {A B} (P : S -> Prop) (m : M S A) (k : A -> M S B) :
  stable P m -> (forall x, stable P (k x)) -> stable P (bind m k).
Proof. intros Hm Hk. eapply hoare_bind; [exact Hm | exact Hk]. Qed.

Lemma stable_gets {A} (P : S -> Prop) (f : S -> A) : stable P (gets f).
Proof. apply hoare_gets. auto. Qed.

Lemma stable_lift {A} (P : S -> Prop) (o : outcome A) : stable P (lift o).
Proof. apply hoare_lift. intros s Hs. destruct o; auto. Qed.

Lemma stable_abort {A} (P : S -> Prop) w : stable P (abort w : M S A).
Proof. apply hoare_abort. auto. Qed.

Lemma stable_assert (P : S -> Prop) c w : stable P (DRAKE_ASSERT c w).
Proof. apply hoare_assert. intros s Hs. destruct c; auto. Qed.

Lemma stable_modify (P : S -> Prop) (f : S -> S) :
  (forall s, P s -> P (f s)) -> stable P (modify f).
Proof. intros H. apply hoare_modify. exact H. Qed.

Lemma stable_for_range (P : S -> Prop) (body : Z -> M S unit) n lo :
  (forall j, stable P (body j)) -> stable P (for_range lo n body).
Proof.
  intros Hbody. unfold stable. eapply hoare_conseq.
  - apply hoare_for_range with (I := fun _ => P). intros j _. apply Hbody.
  - auto.
  - auto.
  - auto.
Qed.

Lemma stable_for_loop (P : S -> Prop) (body : Z -> M S unit) lo hi :
  (forall j, stable P (body j)) -> stable P (for_loop lo hi body).
Proof. intros H. apply stable_for_range. exact H. Qed.

Lemma stable_for_range_acc {L} (P : S -> Prop) (body : Z -> L -> M S L) n lo acc :
  (forall j acc', stable P (body j acc')) -> stable P (for_range_acc lo n acc body).
Proof.
  intros Hbody. unfold stable. eapply hoare_conseq.
  - apply hoare_for_range_acc with (I := fun _ _ => P). intros j acc' _. apply Hbody.
  - auto.
  - auto.
  - auto.
Qed.

Lemma stable_for_loop_acc {L} (P : S -> Prop) (body : Z -> L -> M S L) lo hi acc :
  (forall j acc', stable P (body j acc')) -> stable P (for_loop_acc lo hi acc body).
Proof. intros H. apply stable_for_range_acc. exact H. Qed.

End HoareRules.

Lemma stable_zoom {S T A} (prj : T -> S) (upd : S -> T -> T) (P : T -> Prop)
    (m : M S A) :
  (forall t s', P t -> P (upd s' t)) -> stable P (zoom prj upd m).
Proof.
  intros H t Ht. unfold zoom. destruct (m (prj t)) as [[x | w] s']; apply H; exact Ht.
Qed.

(** ** Computations that only read *)

Definition readonly {S A : Type} (m : M S A) : Prop := forall s, snd (m s) = s.

Lemma readonly_stable {S A} (P : S -> Prop) (m : M S A) : readonly m -> stable P m.
Proof.
  intros Hr s Hs. specialize (Hr s).
  destruct (m s) as [[x | w] s']; simpl in Hr; subst s'; exact Hs.
Qed.

Lemma readonly_ret {S A} (x : A) : readonly (ret x : M S A).
Proof. intros s. reflexivity. Qed.

Lemma readonly_gets {S A} (f : S -> A) : readonly (gets f).
Proof. intros s. reflexivity. Qed.

Lemma readonly_lift {S A} (o : outcome A) : readonly (lift o : M S A).
Proof. intros s. reflexivity. Qed.

Lemma readonly_abort {S A} w : readonly (abort w : M S A).
Proof. intros s. reflexivity. Qed.

Lemma readonly_bind {S A B} (m : M S A) (k : A -> M S B) :
  readonly m -> (forall x, readonly (k x)) -> readonly (bind m k).
Proof.
  intros Hm Hk s. unfold bind. specialize (Hm s).
  destruct (m s) as [[x | w] s']; simpl in Hm; subst s'; [apply Hk | reflexivity].
Qed.

Lemma readonly_zoom {S T A} (prj : T -> S) (upd : S -> T -> T) (m : M S A) :
  (forall t, upd (prj t) t = t) -> readonly m -> readonly (zoom prj upd m).
Proof.
  intros Hid Hm t. unfold zoom. specialize (Hm (prj t)).
  destruct (m (prj t)) as [r s']; simpl in *. subst s'. apply Hid.
Qed.

(** What a computation that only reads returns does not depend on how it is
    observed: its run is its result paired with the state it started from. *)
Lemma readonly_run {S A} (m : M S A) s : readonly m -> m s = (fst (m s), s).
Proof. intros H. specialize (H s). destruct (m s); simpl in *; congruence. Qed.

Lemma set_hd_base_id (o : HybridDircon) : set_hd_base (hd_base o) o = o.
Proof. destruct o; reflexivity. Qed.

Lemma set_program_id (o : HybridDircon) : set_program (program o) o = o.
Proof. destruct o as [[p] ]; reflexivity. Qed.

Lemma readonly_in_shooting {A} (m : M MultipleShooting A) :
  readonly m -> readonly (in_shooting m).
Proof. apply readonly_zoom. exact set_hd_base_id. Qed.

Lemma readonly_in_program {A} (m : M MathematicalProgram A) :
  readonly m -> readonly (in_program m).
Proof. apply readonly_zoom. exact set_program_id. Qed.

Create HintDb readonly.

#[export] Hint Resolve readonly_ret readonly_gets readonly_lift readonly_abort
  readonly_in_shooting readonly_in_program : readonly.

(** Splits a goal [readonly m] along the structure of [m]. *)
Ltac readonly_tac :=
  repeat match goal with
    | |- readonly (bind _ _) => apply readonly_bind; [| intros ? ]
    | |- readonly (if ?c then _ else _) => destruct c
    | |- readonly (match ?c with _ => _ end) => destruct c
    | |- readonly _ => solve [ auto with readonly ]
    end.

Lemma readonly_shooting_timestep index : readonly (Shooting.timestep index).
Proof. unfold Shooting.timestep. readonly_tac. Qed.

Lemma readonly_shooting_state index : readonly (Shooting.state index).
Proof. unfold Shooting.state. readonly_tac. Qed.

Lemma readonly_shooting_input index : readonly (Shooting.input index).
Proof. unfold Shooting.input. readonly_tac. Qed.

#[export] Hint Resolve readonly_shooting_timestep readonly_shooting_state
  readonly_shooting_input : readonly.

Lemma readonly_num_states : readonly num_states.
Proof. unfold num_states. readonly_tac. Qed.

Lemma readonly_num_inputs : readonly num_inputs.
Proof. unfold num_inputs. readonly_tac. Qed.

Lemma readonly_N : readonly N.
Proof. unfold N. readonly_tac. Qed.

Lemma readonly_h_vars : readonly h_vars.
Proof. unfold h_vars. readonly_tac. Qed.

Lemma readonly_x_vars : readonly x_vars.
Proof. unfold x_vars. readonly_tac. Qed.

Lemma readonly_u_vars : readonly u_vars.
Proof. unfold u_vars. readonly_tac. Qed.

Lemma readonly_timestep index : readonly (timestep index).
Proof. unfold timestep. readonly_tac. Qed.

Lemma readonly_state index : readonly (state index).
Proof. unfold state. readonly_tac. Qed.

Lemma readonly_input index : readonly (input index).
Proof. unfold input. readonly_tac. Qed.

Lemma readonly_member_at {A} (member : HybridDircon -> list A) i :
  readonly (member_at member i).
Proof. unfold member_at. readonly_tac. Qed.

#[export] Hint Resolve readonly_num_states readonly_num_inputs readonly_N
  readonly_h_vars readonly_x_vars readonly_u_vars readonly_timestep
  readonly_state readonly_input readonly_member_at : readonly.

Lemma readonly_num_kinematic_constraints mode :
  readonly (num_kinematic_constraints mode).
Proof. unfold num_kinematic_constraints. readonly_tac. Qed.

Lemma readonly_force_vars mode : readonly (force_vars mode).
Proof. unfold force_vars. readonly_tac. Qed.

Lemma readonly_collocation_force_vars mode : readonly (collocation_force_vars mode).
Proof. unfold collocation_force_vars. readonly_tac. Qed.

Lemma readonly_collocation_slack_vars mode : readonly (collocation_slack_vars mode).
Proof. unfold collocation_slack_vars. readonly_tac. Qed.

Lemma readonly_offset_vars mode : readonly (offset_vars mode).
Proof. unfold offset_vars. readonly_tac. Qed.

#[export] Hint Resolve readonly_num_kinematic_constraints readonly_force_vars
  readonly_collocation_force_vars readonly_collocation_slack_vars
  readonly_offset_vars : readonly.

Lemma readonly_force mode index : readonly (force mode index).
Proof. unfold force. readonly_tac. Qed.

Lemma readonly_v_post_impact_vars_by_mode mode :
  readonly (v_post_impact_vars_by_mode mode).
Proof. unfold v_post_impact_vars_by_mode. readonly_tac. Qed.

#[export] Hint Resolve readonly_force readonly_v_post_impact_vars_by_mode : readonly.

Lemma readonly_state_vars_by_mode mode time_index :
  readonly (state_vars_by_mode mode time_index).
Proof. unfold state_vars_by_mode. readonly_tac. Qed.

#[export] Hint Resolve readonly_state_vars_by_mode : readonly.

(** Splits a goal [stable P m] along the structure of [m]; what only reads
    is discharged, what writes is left to the caller. *)
Ltac stable_tac :=
  repeat match goal with
    | |- hoare ?P ?m (fun _ => ?P) ?P => change (stable P m)
    | |- stable _ (bind _ _) => apply stable_bind; [| intros ? ]
    | |- stable _ (ret _) => apply stable_ret
    | |- stable _ (gets _) => apply stable_gets
    | |- stable _ (lift _) => apply stable_lift
    | |- stable _ (abort _) => apply stable_abort
    | |- stable _ (DRAKE_ASSERT _ _) => apply stable_assert
    | |- stable _ (for_loop _ _ _) => apply stable_for_loop; intros ?
    | |- stable _ (for_loop_acc _ _ _ _) => apply stable_for_loop_acc; intros ? ?
    | |- stable _ (if ?c then _ else _) => destruct c
    | |- stable _ (match ?c with _ => _ end) => destruct c
    | |- stable _ _ => apply readonly_stable; solve [ auto with readonly ]
    end.

Lemma hoare_pure {S A} (phi : Prop) (P : S -> Prop) (m : M S A) Q R :
  (phi -> hoare P m Q R) -> hoare (fun s => P s /\ phi) m Q R.
Proof. intros H s [Hs Hphi]. apply H; assumption. Qed.

(** ** What the program operations change *)

Lemma AddConstraint_run c vars p :
  Program.AddConstraint c vars p =
  (Done tt, mkProg (decision_variables_ p) (x_initial_guess_ p)
                   (bindings_ p ++ [mkBinding c vars]) (costs_ p)).
Proof. reflexivity. Qed.


(** * Running a computation forward from a given state *)

(** [wp m Q R s]: run from [s], [m] finishes in [Q] or stops in [R]. *)
Definition wp {S A : Type} (m : M S A) (Q : A -> S -> Prop) (R : S -> Prop)
    (s : S) : Prop :=
  match m s with
  | (Done x, s') => Q x s'
  | (Abort _, s') => R s'
  end.

Lemma hoare_wp {S A} (P : S -> Prop) (m : M S A) Q R :
  hoare P m Q R <-> (forall s, P s -> wp m Q R s).
Proof. reflexivity. Qed.

Section WpRules.

Context {S : Type}.

Lemma wp_bind {A B} (m : M S A) (k : A -> M S B) Q R s :
  wp m (fun x s' => wp (k x) Q R s') R s -> wp (bind m k) Q R s.
Proof. unfold wp, bind. destruct (m s) as [[x | w] s']; auto. Qed.

Lemma wp_ret {A} (x : A) (Q : A -> S -> Prop) R s : Q x s -> wp (ret x) Q R s.
Proof. auto. Qed.

Lemma wp_gets {A} (f : S -> A) (Q : A -> S -> Prop) R s :
  Q (f s) s -> wp (gets f) Q R s.
Proof. auto. Qed.

Lemma wp_modify (f : S -> S) (Q : unit -> S -> Prop) R s :
  Q tt (f s) -> wp (modify f) Q R s.
Proof. auto. Qed.

Lemma wp_lift {A} (o : outcome A) (Q : A -> S -> Prop) R s :
  match o with Done x => Q x s | Abort _ => R s end -> wp (lift o) Q R s.
Proof. unfold wp, lift. destruct o; auto. Qed.

Lemma wp_hoare {A} (P : S -> Prop) (m : M S A) Q' R' (Q : A -> S -> Prop)
    (R : S -> Prop) s :
  hoare P m Q' R' -> P s ->
  (forall x s', Q' x s' -> Q x s') -> (forall s', R' s' -> R s') ->
  wp m Q R s.
Proof.
  intros H Hs HQ HR. specialize (H s Hs). unfold wp.
  destruct (m s) as [[x | w] s']; auto.
Qed.

End WpRules.

Lemma wp_member_at {A} (member : HybridDircon -> list A) i
    (Q : A -> HybridDircon -> Prop) R s :
  match vec_at (member s) i with Done x => Q x s | Abort _ => R s end ->
  wp (member_at member i) Q R s.
Proof. unfold wp, member_at, bind, gets, lift. destruct (vec_at (member s) i); auto. Qed.

Lemma wp_in_program {A} (m : M MathematicalProgram A)
    (Q : A -> HybridDircon -> Prop) R s :
  match m (program s) with
  | (Done x, p') => Q x (set_program p' s)
  | (Abort _, p') => R (set_program p' s)
  end ->
  wp (in_program m) Q R s.
Proof. unfold wp, in_program, zoom. destruct (m (program s)) as [[x | w] p']; auto. Qed.

Lemma wp_assert {S} (c : bool) w (Q : unit -> S -> Prop) (R : S -> Prop) s :
  (if c then Q tt s else R s) -> wp (DRAKE_ASSERT c w) Q R s.
Proof. unfold wp, DRAKE_ASSERT. destruct c; auto. Qed.

Lemma vec_at_lookup {A} (v : list A) i x :
  0 <= i -> v !! Z.to_nat i = Some x -> vec_at v i = Done x.
Proof.
  intros Hi Hx. unfold vec_at. destruct (i <? 0) eqn:E; [lia |]. rewrite Hx. reflexivity.
Qed.

(** A computation that cannot stop on a state returns a result there. *)
Lemma wp_result {S A} (m : M S A) (Q : A -> S -> Prop) s :
  wp m Q (fun _ => False) s -> exists x, fst (m s) = Done x /\ Q x (snd (m s)).
Proof.
  unfold wp. destruct (m s) as [[x | w] s']; [| intros []].
  intros H. exists x. split; [reflexivity | exact H].
Qed.

(** ** Reads, and blocks that leave their vector *)

(** Running a computation that only reads. *)
Lemma wp_readonly {S A} (m : M S A) (Q : A -> S -> Prop) (R : S -> Prop) s :
  readonly m -> R s -> (forall x, fst (m s) = Done x -> Q x s) -> wp m Q R s.
Proof.
  intros Hr HR HQ. unfold wp. rewrite (readonly_run m s Hr).
  destruct (fst (m s)) as [x | w]; [apply HQ; reflexivity | exact HR].
Qed.

(** Running a computation that only reads and whose result is known. *)
Lemma wp_read {S A} (m : M S A) (Q : A -> S -> Prop) (R : S -> Prop) s x :
  readonly m -> fst (m s) = Done x -> Q x s -> wp m Q R s.
Proof. intros Hr Hx HQ. unfold wp. rewrite (readonly_run m s Hr), Hx. exact HQ. Qed.

Lemma segment_out_of_range {A} (v : list A) start n :
  size v < start + n -> segment v start n = Abort "segment out of range".
Proof.
  intros H. unfold segment.
  destruct (start + n <=? size v) eqn:E; [lia |].
  rewrite andb_false_r. reflexivity.
Qed.

Lemma segment_size {A} (v : list A) start n b :
  segment v start n = Done b -> size b = n.
Proof.
  unfold segment.
  destruct (0 <=? start) eqn:E1; [| discriminate].
  destruct (0 <=? n) eqn:E2; [| discriminate].
  destruct (start + n <=? size v) eqn:E3; [| discriminate].
  simpl. intros H. injection H as <-. unfold size in *.
  rewrite length_take, length_drop. lia.
Qed.

Lemma fst_lift {S A} (o : outcome A) (s : S) : fst (lift o s) = o.
Proof. reflexivity. Qed.

(** A block with rows does not fit in a vector without rows. *)
Lemma comma_write_no_rows {A} (b : list A) :
  0 < size b -> comma_write 0 [] b = Abort "comma initializer out of range".
Proof.
  intros Hb. unfold comma_write. change (size (@nil A)) with 0.
  destruct (0 + size b <=? 0) eqn:E; [lia | reflexivity].
Qed.

(** ** No state block is ever resolved *)

(** With assertions armed, [state_vars_by_mode] cannot return on an object
    with a state dimension above 0: [ret] has no rows when the comma
    initialiser writes into it, and the [num_states()] rows of the result
    are taken from it. *)
Lemma state_vars_by_mode_hoare (mode time_index : Z) (o : HybridDircon) :
  0 < num_states_ (hd_base o) ->
  wp (state_vars_by_mode mode time_index) (fun _ _ => False) (fun s => s = o) o.
Proof.
  intros Hns. unfold state_vars_by_mode.
  destruct ((time_index =? 0) && (0 <? mode)).
  - cbv zeta. change (size (@nil DecisionVariable)) with 0.
    apply wp_bind, wp_readonly; [auto with readonly | reflexivity | intros x Hx].
    apply wp_bind, wp_readonly; [auto with readonly | reflexivity | intros start Hstart].
    apply wp_bind, wp_gets.
    apply wp_bind, wp_readonly; [auto with readonly | reflexivity | intros q Hq].
    rewrite fst_lift in Hq. apply segment_size in Hq.
    apply wp_bind, wp_lift. unfold comma_write at 1. change (size (@nil DecisionVariable)) with 0.
    destruct (0 + size q <=? 0) eqn:Eq; [| reflexivity].
    apply wp_bind, wp_readonly; [auto with readonly | reflexivity | intros v Hv].
    apply wp_bind, wp_lift. unfold comma_write.
    destruct (size ([] ++ q) + size v <=? 0) eqn:Ev; [| reflexivity].
    apply wp_bind, wp_lift. unfold comma_finished.
    destruct (size (([] ++ q) ++ v) =? 0) eqn:Ef; [| reflexivity].
    apply wp_bind, wp_readonly; [auto with readonly | reflexivity | intros n Hn].
    apply wp_lift.
    unfold num_states, in_shooting, zoom, gets in Hn. simpl in Hn. injection Hn as <-.
    rewrite segment_out_of_range; [reflexivity |]. lia.
  - cbv zeta. change (size (@nil DecisionVariable)) with 0.
    apply wp_bind, wp_readonly; [auto with readonly | reflexivity | intros x Hx].
    apply wp_bind, wp_readonly; [auto with readonly | reflexivity | intros start Hstart].
    apply wp_bind, wp_readonly; [auto with readonly | reflexivity | intros n Hn].
    unfold num_states, in_shooting, zoom, gets in Hn. simpl in Hn. injection Hn as <-.
    apply wp_bind, wp_readonly; [auto with readonly | reflexivity | intros b Hb].
    rewrite fst_lift in Hb. apply segment_size in Hb.
    apply wp_bind, wp_lift. rewrite comma_write_no_rows by lia. reflexivity.
Qed.

Lemma state_vars_by_mode_stops (mode time_index : Z) (o : HybridDircon) :
  0 < num_states_ (hd_base o) ->
  exists w, fst (state_vars_by_mode mode time_index o) = Abort w.
Proof.
  intros Hns. pose proof (state_vars_by_mode_hoare mode time_index o Hns) as H.
  unfold wp in H. destruct (state_vars_by_mode mode time_index o) as [[b | w] s];
    [destruct H | exists w; reflexivity].
Qed.

(** * The dimension of the dynamics constraint *)


Section Reasons.

Context {S : Type}.

Variable allowed : string -> Prop.








End Reasons.














(** * The sizes of the per-mode variable blocks *)

Lemma hoare_seq_stable {S A B} (P : S -> Prop) (m : M S A) (k : A -> M S B) Q R :
  stable P m -> (forall s, P s -> R s) ->
  (forall x, hoare P (k x) Q R) ->
  hoare P (bind m k) Q R.
Proof.
  intros Hm HR Hk. eapply hoare_bind; [| exact Hk].
  eapply hoare_conseq; [exact Hm | auto | auto | exact HR].
Qed.

(** A result that an [int] can hold is not changed by the wrap-around. *)
Lemma int_wrap_in_range z : - 2 ^ 31 <= z <= 2 ^ 31 - 1 -> int_wrap z = z.
Proof.
  intros Hz. unfold int_wrap.
  rewrite Z.mod_small by lia. lia.
Qed.



(** * Concrete transcriptions *)

(** A tree with one position, one velocity and one actuator. *)
Definition pendulum : RigidBodyTree := mkTree 1 1 1.

(** A mode without kinematic constraints. *)
Definition unconstrained : DirconKinematicDataSet := mkDataSet 0 [].

Definition plain_options : DirconOptions :=
  mkOptions [] ValueAndVelocity ValueAndVelocity 0%Q.

(** Two modes of [n0] and [n1] knots over the pendulum, the first with the
    constraint set [ds0], the second unconstrained. *)
Definition two_modes (n0 n1 : Z) (ds0 : DirconKinematicDataSet) : Arguments_ :=
  mkArguments pendulum [n0; n1] [(1 # 100)%Q; (1 # 100)%Q] [3%Q; 3%Q]
              [ds0; unconstrained] [plain_options; plain_options].

(** A variable block shown by the names and rows of its variables. *)
Definition rows (v : VectorXDecisionVariable) : list (string * nat) :=
  map (fun x => (var_name x, var_row x)) v.

Definition outcome_map {A B : Type} (f : A -> B) (o : outcome A) : outcome B :=
  match o with
  | Done x => Done (f x)
  | Abort w => Abort w
  end.

(** ** The state of a knot at and away from a mode seam *)

Definition seam_arguments : Arguments_ := two_modes 2 2 unconstrained.

Definition seam_object : HybridDircon := snd (HybridDircon_ctor seam_arguments).

(** C1, at two modes of two knots each over the pendulum (n_q = n_v = 1):
    the constructor stops in its first mode, at the first state block it
    asks for; by then a single post-impact block of n_v variables exists,
    allocated for mode 0.  On the object it had built, no call of
    [state_vars_by_mode] returns, whatever the mode and the knot: the comma
    initialiser writes into a vector without rows.  The allocation of mode 1,
    run on that object, returns and overwrites the post-impact member with
    its new block: the member still holds n_v variables, and
    [v_post_impact_vars_by_mode(1)], at offset 1*n_v, leaves it.  The
    per-knot state block the claim names for knot 1 is rows 2, 3 of the
    state vector. *)
Theorem state_vars_by_mode_at_seam :
  fst (HybridDircon_ctor seam_arguments) = Abort "comma initializer out of range" /\
  mode_start_ seam_object = [0] /\
  rows (v_post_impact_vars_ seam_object) = [("v_p"%string, 0%nat)] /\
  rows (List.filter (fun v => String.eqb (var_name v) "v_p")
                    (decision_variables_ (program seam_object)))
    = [("v_p"%string, 0%nat)] /\
  (forall mode time_index,
     exists w, fst (state_vars_by_mode mode time_index seam_object) = Abort w) /\
  fst (state_vars_by_mode 0 1 seam_object) = Abort "comma initializer out of range" /\
  fst (initialize_decision_variables seam_arguments 1 seam_object) = Done tt /\
  size (v_post_impact_vars_
          (snd (initialize_decision_variables seam_arguments 1 seam_object))) = 1 /\
  fst (v_post_impact_vars_by_mode 1
         (snd (initialize_decision_variables seam_arguments 1 seam_object)))
    = Abort "segment out of range" /\
  outcome_map rows (fst (state 1 seam_object))
    = Done [("x"%string, 2%nat); ("x"%string, 3%nat)].
Proof.
  split; [vm_compute; reflexivity |].
  split; [vm_compute; reflexivity |].
  split; [vm_compute; reflexivity |].
  split; [vm_compute; reflexivity |].
  split; [| repeat split; vm_compute; reflexivity].
  intros mode time_index. apply state_vars_by_mode_stops. vm_compute. reflexivity.
Qed.

(** ** The timestep constraints of a second mode *)

Definition uneven_arguments : Arguments_ :=
  mkArguments pendulum [2; 3] [(1 # 100)%Q; (1 # 2)%Q] [1%Q; 2%Q]
              [unconstrained; unconstrained] [plain_options; plain_options].

Definition uneven_object : HybridDircon := snd (HybridDircon_ctor uneven_arguments).

Definition is_timestep_constraint (b : Binding) : bool :=
  match constraint b with
  | BoundingBoxConstraint _ _ => true
  | LinearEqualityConstraint => true
  | _ => false
  end.

(** Whether an assignment of the variables meets a bounding box or an
    equality constraint (the check is used on these two kinds only). *)
Definition satisfied (val : DecisionVariable -> Q) (b : Binding) : bool :=
  match constraint b with
  | BoundingBoxConstraint lb ub =>
      forallb (fun v => Qle_bool lb (val v) && Qle_bool (val v) ub) (variables b)
  | LinearEqualityConstraint =>
      match variables b with
      | [x; y] => Qeq_bool (val x) (val y)
      | _ => false
      end
  | _ => true
  end.

(** Every timestep is 1 but the last one, which is 50. *)
Definition stretched (v : DecisionVariable) : Q :=
  if (var_id v =? 3)%nat then 50%Q else 1%Q.

(** C2, at a first mode of two knots and a second of three with the
    timestep range [1/2, 2], on the object the constructor had built when it
    stopped: the second mode starts at knot 2, so its intervals are the
    timesteps 2 and 3; "set timestep bounds" for it returns and puts its
    range on the timesteps 0, 1, 2 and its equalities on the pairs (0, 1)
    and (1, 2); timestep 3 is left to the base range, so an assignment with
    every timestep equal to 1 but timestep 3, equal to 50, meets every
    timestep constraint of the program. *)
Theorem timestep_constraints_of_second_mode :
  mode_lengths_ uneven_object = [2; 3] /\
  rows (h_vars_ (hd_base uneven_object))
  = [("h"%string, 0%nat); ("h"%string, 1%nat); ("h"%string, 2%nat); ("h"%string, 3%nat)] /\
  fst (set_timestep_bounds uneven_arguments 1 uneven_object) = Done tt /\
  map (fun b => (constraint b, rows (variables b)))
      (drop (length (bindings_ (program uneven_object)))
            (bindings_ (program (snd (set_timestep_bounds uneven_arguments 1
                                        uneven_object)))))
  = [ (BoundingBoxConstraint (1 # 2) 2, [("h"%string, 0%nat)]);
      (BoundingBoxConstraint (1 # 2) 2, [("h"%string, 1%nat)]);
      (BoundingBoxConstraint (1 # 2) 2, [("h"%string, 2%nat)]);
      (LinearEqualityConstraint, [("h"%string, 0%nat); ("h"%string, 1%nat)]);
      (LinearEqualityConstraint, [("h"%string, 1%nat); ("h"%string, 2%nat)]) ]%Q /\
  take (length (bindings_ (program uneven_object)))
       (bindings_ (program (snd (set_timestep_bounds uneven_arguments 1 uneven_object))))
  = bindings_ (program uneven_object) /\
  forallb (satisfied stretched)
          (List.filter is_timestep_constraint
             (bindings_ (program (snd (set_timestep_bounds uneven_arguments 1
                                         uneven_object)))))
  = true /\
  map stretched (h_vars_ (hd_base uneven_object)) = [1%Q; 1%Q; 1%Q; 50%Q].
Proof. vm_compute. repeat split. Qed.

(** ** The running cost over three knots *)

Definition three_knots : HybridDircon :=
  snd (HybridDircon_ctor (two_modes 2 1 unconstrained)).

(** The effort [u * u]. *)
Definition effort : Expression := EMul (EPlaceholder_u 0) (EPlaceholder_u 0).

(** Every decision variable is 1. *)
Definition ones : valuation :=
  mkValuation (fun _ => 1%Q) 0%Q (fun _ => 0%Q) (fun _ => 0%Q).

(** The value of the running cost [g] at knot [i]. *)
Definition knot_cost (env : valuation) (o : HybridDircon) (g : Expression) (i : Z) : Q :=
  match fst (in_shooting (Shooting.SubstitutePlaceholderVariables g i) o) with
  | Done e => eval env e
  | Abort _ => 0%Q
  end.

(** The value of the timestep of interval [i]. *)
Definition timestep_value (env : valuation) (o : HybridDircon) (i : Z) : Q :=
  match vec_at (h_vars_ (hd_base o)) i with
  | Done v => val_var env v
  | Abort _ => 0%Q
  end.

(** The trapezoidal integral as the comment of [DoAddRunningCost] and the
    specification write it:
    g_0*h_0/2 + sum_{i=1..N-2} g_i*(h_{i-1} + h_i)/2 + g_{N-1}*h_{N-2}/2. *)
Definition trapezoid (g h : Z -> Q) (n : Z) : Q :=
  (g 0%Z * h 0%Z / 2
   + fold_right (fun i acc => g i * (h (i - 1)%Z + h i) / 2 + acc) 0
                (seqZ 1 (n - 2)%Z)
   + g (n - 1)%Z * h (n - 2)%Z / 2)%Q.

(** C3, at three knots, the effort [u * u] as running cost and every
    variable equal to 1: the trapezoidal integral is 1/2 + 1 + 1/2 = 2, the
    costs [DoAddRunningCost] adds sum to 1/4 + 1/4 = 1/2 (the two end terms
    are halved once more and the loop stops before knot N-2). *)
Theorem running_cost_of_three_knots :
  fst (DoAddRunningCost effort three_knots) = Done tt /\
  costs_ (program three_knots) = [] /\
  length (costs_ (program (snd (DoAddRunningCost effort three_knots)))) = 2%nat /\
  (total_cost ones (program (snd (DoAddRunningCost effort three_knots))) == 1 # 2)%Q /\
  (trapezoid (knot_cost ones three_knots effort) (timestep_value ones three_knots) 3
   == 2)%Q.
Proof. vm_compute. repeat split. Qed.

(** ** The force constraints of a mode with two contacts *)

(** Two constraint objects of one row each, each with one force constraint. *)
Definition two_contacts : DirconKinematicDataSet :=
  mkDataSet 1 [mkData 0 1 1; mkData 1 1 1].

Definition contact_object : HybridDircon :=
  snd (HybridDircon_ctor (two_modes 2 1 two_contacts)).

Definition is_force_constraint (b : Binding) : bool :=
  match constraint b with
  | ForceConstraint _ _ => true
  | _ => false
  end.

(** The constraint objects of a set with the offset of the sub-block of each
    inside a knot's force block. *)
Fixpoint sub_blocks (kds : list DirconKinematicData) (offset : Z)
  : list (DirconKinematicData * Z) :=
  match kds with
  | [] => []
  | kd :: rest => (kd, offset) :: sub_blocks rest (offset + getLength kd)
  end.

(** The force constraints as the specification states them: at every one of
    the [knots] knots of the mode, every force constraint of every constraint
    object over that object's sub-block of the knot's force block. *)
Definition force_bindings_claimed (ds : DirconKinematicDataSet)
    (fv : VectorXDecisionVariable) (knots : Z)
  : list (Constraint * outcome (list (string * nat))) :=
  flat_map (fun l =>
    flat_map (fun kd_off =>
      map (fun k =>
             (ForceConstraint (fst kd_off) k,
              outcome_map rows
                (segment fv (l * countConstraints ds + snd kd_off)
                         (getLength (fst kd_off)))))
          (seqZ 0 (numForceConstraints (fst kd_off))))
      (sub_blocks (ds_constraints ds) 0))
    (seqZ 0 knots).

(** C4, at a mode of two knots with two one-row contacts (force block
    lambda[0] of rows 0..3, knot 0 owning rows 0, 1 and knot 1 rows 2, 3), on
    the object the constructor had built when it stopped (no force
    constraint bound yet): "Add constraints on force variables" returns and
    adds two force constraints, the first contact's on row 1 and the second
    contact's on row 2; the specification asks for four, on rows 0, 1, 2,
    3. *)
Theorem force_constraints_of_two_contacts :
  rows (concat (force_vars_ contact_object))
  = [("lambda[0]"%string, 0%nat); ("lambda[0]"%string, 1%nat);
     ("lambda[0]"%string, 2%nat); ("lambda[0]"%string, 3%nat)] /\
  List.filter is_force_constraint (bindings_ (program contact_object)) = [] /\
  fst (add_force_constraints 0 contact_object) = Done tt /\
  map (fun b => (constraint b, rows (variables b)))
      (List.filter is_force_constraint
         (bindings_ (program (snd (add_force_constraints 0 contact_object)))))
  = [ (ForceConstraint (mkData 0 1 1) 0, [("lambda[0]"%string, 1%nat)]);
      (ForceConstraint (mkData 1 1 1) 0, [("lambda[0]"%string, 2%nat)]) ] /\
  match force_vars_ contact_object with
  | fv :: _ => force_bindings_claimed two_contacts fv 2
  | [] => []
  end
  = [ (ForceConstraint (mkData 0 1 1) 0, Done [("lambda[0]"%string, 0%nat)]);
      (ForceConstraint (mkData 1 1 1) 0, Done [("lambda[0]"%string, 1%nat)]);
      (ForceConstraint (mkData 0 1 1) 0, Done [("lambda[0]"%string, 2%nat)]);
      (ForceConstraint (mkData 1 1 1) 0, Done [("lambda[0]"%string, 3%nat)]) ].
Proof. vm_compute. repeat split. Qed.

(** ** The kinematic constraints of a mode of three knots *)

Definition marked_options : DirconOptions := mkOptions [] ValueOnly RowOmitted 0%Q.

Definition three_knot_arguments : Arguments_ :=
  mkArguments pendulum [3; 1] [(1 # 100)%Q; (1 # 100)%Q] [3%Q; 3%Q]
              [unconstrained; unconstrained]
              [marked_options; plain_options].

Definition three_knot_mode : HybridDircon :=
  snd (HybridDircon_ctor three_knot_arguments).

(** The kinematic constraints among the bindings: the type each was built
    with and the variables it is bound to. *)
Definition kinematic_bindings (o : HybridDircon)
  : list (option DirconKinConstraintType * list (string * nat)) :=
  flat_map (fun b =>
    match constraint b with
    | KinematicConstraint c => [(kin_type c, rows (variables b))]
    | _ => []
    end) (bindings_ (program o)).

(** The variables of knot [knot] of mode [mode] as the specification names
    them: the knot's state, its input, its force block and the offset
    variables of the mode. *)
Definition knot_variables_claimed (o : HybridDircon) (mode knot : Z)
  : outcome (list (string * nat)) :=
  outcome_map rows
    (fst ((let* start := member_at mode_start_ mode in
           let* x := state (start + knot) in
           let* u := input (start + knot) in
           let* l := force mode knot in
           let* off := offset_vars mode in
           ret (x ++ u ++ l ++ off)) o)).

(** C7, at a first mode of three knots over the pendulum (two state
    variables per knot): the constructor stops before it reaches the
    kinematic constraints and its program holds none; run on the object it
    had built, "Adding kinematic constraints" stops at the state block of
    its first knot and binds nothing, where the specification asks for one
    constraint on each of the knots 0, 1, 2, bound to the knot's state (rows
    0-1, 2-3, 4-5 of the state vector) and input. *)
Theorem kinematic_constraints_of_three_knots :
  fst (HybridDircon_ctor three_knot_arguments) = Abort "comma initializer out of range" /\
  kinematic_bindings three_knot_mode = [] /\
  fst (add_kinematic_constraints three_knot_arguments 0 three_knot_mode)
  = Abort "comma initializer out of range" /\
  snd (add_kinematic_constraints three_knot_arguments 0 three_knot_mode)
  = three_knot_mode /\
  knot_variables_claimed three_knot_mode 0 0
  = Done [("x"%string, 0%nat); ("x"%string, 1%nat); ("u"%string, 0%nat)] /\
  knot_variables_claimed three_knot_mode 0 1
  = Done [("x"%string, 2%nat); ("x"%string, 3%nat); ("u"%string, 1%nat)] /\
  knot_variables_claimed three_knot_mode 0 2
  = Done [("x"%string, 4%nat); ("x"%string, 5%nat); ("u"%string, 2%nat)].
Proof. vm_compute. repeat split. Qed.

(** ** Seeding the forces of the first of two modes *)

(** One constraint object of one row, without force constraints. *)
Definition one_row : DirconKinematicDataSet := mkDataSet 1 [mkData 0 1 0].

Definition one_row_object : HybridDircon :=
  snd (HybridDircon_ctor (two_modes 2 1 one_row)).

(** The constant trajectory of value 5, and the empty trajectory. *)
Definition constant_five : PiecewisePolynomialFn := mkTrajectory false (fun _ => [5%Q]).
Definition no_trajectory : PiecewisePolynomialFn := mkTrajectory true (fun _ => []).

(** C10, at the first mode (two knots, one constraint row: force block of
    two variables) of a transcription of three knots in all: with all three
    trajectories empty the three blocks are set to zero; with a force
    trajectory that is not empty the loop over the knots runs to N = 3, the
    third block [segment(2, 1)] lies outside the guess vector of size 2, and
    the method stops with no guess set at all, the zeros of the two
    collocation blocks included. *)
Theorem force_seeding_of_first_mode :
  rows (concat (force_vars_ one_row_object))
    = [("lambda[0]"%string, 0%nat); ("lambda[0]"%string, 1%nat)] /\
  fst (N one_row_object) = Done 3 /\
  fst (SetInitialForceTrajectory 0 no_trajectory no_trajectory no_trajectory
         one_row_object) = Done tt /\
  x_initial_guess_ (program (snd
    (SetInitialForceTrajectory 0 no_trajectory no_trajectory no_trajectory
       one_row_object)))
    = replicate 11 None ++ replicate 4 (Some 0%Q) ++ replicate 1 None /\
  fst (SetInitialForceTrajectory 0 constant_five no_trajectory no_trajectory
         one_row_object) = Abort "segment assignment out of range" /\
  x_initial_guess_ (program (snd
    (SetInitialForceTrajectory 0 constant_five no_trajectory no_trajectory
       one_row_object)))
    = replicate 16 None.
Proof. vm_compute. repeat split. Qed.

(** * Validation of the constructor's arguments *)

(** The object as the base class constructor leaves it. *)
Definition base_object (a : Arguments_) : outcome unit * HybridDircon :=
  in_shooting (Shooting.ctor (get_num_actuators (arg_tree a))
                 (get_num_positions (arg_tree a) + get_num_velocities (arg_tree a))
                 (accumulate (arg_num_time_samples a))
                 (1 # 100000000)%Q (100000000 # 1)%Q) blank.

(** One of the three per-mode vectors the constructor asserts on does not
    have one entry per mode. *)
Definition sizes_mismatch (a : Arguments_) : Prop :=
  size (arg_minimum_timestep a) <> size (arg_num_time_samples a) \/
  size (arg_maximum_timestep a) <> size (arg_num_time_samples a) \/
  size (arg_constraints a) <> size (arg_num_time_samples a).

Lemma base_object_variables a :
  fst (base_object a) = Done tt ->
  size (decision_variables_ (program (snd (base_object a))))
  = (accumulate (arg_num_time_samples a) - 1)
    + (get_num_positions (arg_tree a) + get_num_velocities (arg_tree a))
      * accumulate (arg_num_time_samples a)
    + get_num_actuators (arg_tree a) * accumulate (arg_num_time_samples a).
Proof.
  unfold base_object, in_shooting, zoom, Shooting.ctor, bind, modify, Shooting.in_base,
    zoom, Program.NewContinuousVariables, DRAKE_DEMAND, ret, abort,
    Program.AddBoundingBoxConstraint, Program.AddConstraint, modify.
  simpl.
  set (n := accumulate (arg_num_time_samples a)).
  set (ns := get_num_positions (arg_tree a) + get_num_velocities (arg_tree a)).
  set (nu := get_num_actuators (arg_tree a)).
  destruct (n - 1 <? 0) eqn:E1; simpl; [discriminate |].
  destruct (ns * n <? 0) eqn:E2; simpl; [discriminate |].
  destruct (nu * n <? 0) eqn:E3; simpl; [discriminate |].
  repeat (match goal with
          | |- context [if ?c then _ else _] => destruct c
          end; simpl); try discriminate.
  intros _. unfold size. rewrite !length_app, !length_map, !length_seq. lia.
Qed.

(** C5, amended: when the minimum-timestep, maximum-timestep or
    constraint-set vector does not have one entry per mode, the constructor
    stops at its assertions, right after the base class constructor: the
    program is the one the base class left (with its N-1 timestep, n_x*N
    state and n_u*N input variables when the base constructor finished), and
    no per-mode variable block or mode start has been created. *)
Theorem size_mismatch_stops_after_base (a : Arguments_) :
  sizes_mismatch a ->
  (exists w, fst (HybridDircon_ctor a) = Abort w) /\
  program (snd (HybridDircon_ctor a)) = program (snd (base_object a)) /\
  (fst (base_object a) = Done tt ->
   size (decision_variables_ (program (snd (HybridDircon_ctor a))))
   = (accumulate (arg_num_time_samples a) - 1)
     + (get_num_positions (arg_tree a) + get_num_velocities (arg_tree a))
       * accumulate (arg_num_time_samples a)
     + get_num_actuators (arg_tree a) * accumulate (arg_num_time_samples a)) /\
  mode_start_ (snd (HybridDircon_ctor a)) = [] /\
  force_vars_ (snd (HybridDircon_ctor a)) = [] /\
  collocation_force_vars_ (snd (HybridDircon_ctor a)) = [] /\
  collocation_slack_vars_ (snd (HybridDircon_ctor a)) = [] /\
  offset_vars_ (snd (HybridDircon_ctor a)) = [] /\
  v_post_impact_vars_ (snd (HybridDircon_ctor a)) = [].
Proof.
  intros Hm.
  assert (Hrun : (exists w, fst (HybridDircon_ctor a) = Abort w) /\
                 (snd (HybridDircon_ctor a) = snd (base_object a) \/
                  snd (HybridDircon_ctor a)
                  = set_modes_ (size (arg_num_time_samples a)) (arg_num_time_samples a)
                               (snd (base_object a)))).
  { unfold HybridDircon_ctor, construct, base_object.
    match goal with
    | |- context [bind ?m ?k blank] =>
        change (bind m k blank)
          with (match m blank with
                | (Done x, s') => k x s'
                | (Abort w, s') => (Abort w, s')
                end)
    end.
    destruct (in_shooting _ blank) as [[u | w] o1]; [| split; [eexists; reflexivity | left; reflexivity]].
    unfold bind, modify, gets, DRAKE_ASSERT, ret, abort. simpl.
    destruct (size (arg_minimum_timestep a) =? size (arg_num_time_samples a)) eqn:E1;
      simpl; [| split; [eexists; reflexivity | right; reflexivity]].
    destruct (size (arg_maximum_timestep a) =? size (arg_num_time_samples a)) eqn:E2;
      simpl; [| split; [eexists; reflexivity | right; reflexivity]].
    destruct (size (arg_constraints a) =? size (arg_num_time_samples a)) eqn:E3;
      simpl; [| split; [eexists; reflexivity | right; reflexivity]].
    apply Z.eqb_eq in E1, E2, E3. exfalso. destruct Hm as [H | [H | H]]; contradiction. }
  destruct Hrun as [Hw Hs]. split; [exact Hw |].
  assert (Hb : hd_base (snd (HybridDircon_ctor a)) = hd_base (snd (base_object a)) /\
               mode_start_ (snd (HybridDircon_ctor a)) = [] /\
               force_vars_ (snd (HybridDircon_ctor a)) = [] /\
               collocation_force_vars_ (snd (HybridDircon_ctor a)) = [] /\
               collocation_slack_vars_ (snd (HybridDircon_ctor a)) = [] /\
               offset_vars_ (snd (HybridDircon_ctor a)) = [] /\
               v_post_impact_vars_ (snd (HybridDircon_ctor a)) = []).
  { assert (Hblank : mode_start_ (snd (base_object a)) = [] /\
               force_vars_ (snd (base_object a)) = [] /\
               collocation_force_vars_ (snd (base_object a)) = [] /\
               collocation_slack_vars_ (snd (base_object a)) = [] /\
               offset_vars_ (snd (base_object a)) = [] /\
               v_post_impact_vars_ (snd (base_object a)) = []).
    { unfold base_object, in_shooting, zoom.
      destruct (Shooting.ctor _ _ _ _ _ _) as [r s']. simpl. repeat split. }
    destruct Hs as [-> | ->]; [split; [reflexivity | exact Hblank] |].
    split; [reflexivity | exact Hblank]. }
  destruct Hb as (Hbase & Hrest).
  assert (Hp : program (snd (HybridDircon_ctor a)) = program (snd (base_object a))).
  { unfold program. rewrite Hbase. reflexivity. }
  split; [exact Hp |]. split; [| exact Hrest].
  intros Hdone. rewrite Hp. apply base_object_variables. exact Hdone.
Qed.

(** The validation as the specification states it: a vector of the wrong
    length, or a minimum timestep above the maximum, makes the constructor
    stop before any decision variable exists. *)
Definition validation_claim (a : Arguments_) : Prop :=
  (sizes_mismatch a \/
   exists i lo hi,
     arg_minimum_timestep a !! i = Some lo /\
     arg_maximum_timestep a !! i = Some hi /\
     ~ (lo <= hi)%Q) ->
  (exists w, fst (HybridDircon_ctor a) = Abort w) /\
  decision_variables_ (program (snd (HybridDircon_ctor a))) = [].

(** Two modes without a minimum timestep. *)
Definition missing_minimum : Arguments_ :=
  mkArguments pendulum [2; 1] [] [3%Q; 3%Q]
              [unconstrained; unconstrained] [plain_options; plain_options].

(** Two modes whose minimum timestep 2 is above the maximum 1. *)
Definition inverted_range : Arguments_ :=
  mkArguments pendulum [2; 1] [2%Q; 2%Q] [1%Q; 1%Q]
              [unconstrained; unconstrained] [plain_options; plain_options].

(** C5 as stated fails: with the minimum-timestep vector missing the
    constructor stops at its assertion, but the base class has allocated its
    variables by then; and a minimum above the maximum is not checked at
    all: the constructor goes on, allocates the blocks of the first mode and
    puts the empty range [2, 1] on a timestep. *)
Lemma validation_claim_fails :
  ~ validation_claim missing_minimum /\
  ~ validation_claim inverted_range /\
  fst (HybridDircon_ctor missing_minimum)
    = Abort "minimum_timestep.size() == num_modes_" /\
  length (decision_variables_ (program (snd (HybridDircon_ctor missing_minimum))))
    = 11%nat /\
  length (force_vars_ (snd (HybridDircon_ctor inverted_range))) = 1%nat /\
  nth_error (bindings_ (program (snd (HybridDircon_ctor inverted_range)))) 1
    = Some (mkBinding (BoundingBoxConstraint 2 1) [mkVariable 0 "h" 0]).
Proof.
  split; [| split].
  - intros H. destruct H as [_ H]; [| vm_compute in H; discriminate H].
    left. left. vm_compute. discriminate.
  - intros H. destruct H as [_ H]; [| vm_compute in H; discriminate H].
    right. exists 0%nat, 2%Q, 1%Q. repeat split. intros Hle. vm_compute in Hle.
    apply Hle. reflexivity.
  - vm_compute. repeat split.
Qed.

Lemma size_mismatch_stops_after_base_witness :
  sizes_mismatch missing_minimum /\
  (exists w, fst (HybridDircon_ctor missing_minimum) = Abort w) /\
  force_vars_ (snd (HybridDircon_ctor missing_minimum)) = [].
Proof.
  assert (H : sizes_mismatch missing_minimum).
  { left. vm_compute. discriminate. }
  split; [exact H |].
  pose proof (size_mismatch_stops_after_base missing_minimum H) as (Hw & _ & _ & _ & Hf & _).
  split; assumption.
Defined.

(** ** Witnesses on the states the constructor passes through *)

(** The object when the loop over the modes starts: the base class
    constructed, the modes, the tree and the constraint sets stored. *)
Definition loop_entry (a : Arguments_) : HybridDircon :=
  set_constraints_ (arg_constraints a)
    (set_tree_ (arg_tree a)
       (set_modes_ (size (arg_num_time_samples a)) (arg_num_time_samples a)
          (snd (base_object a)))).

(** The object when the first mode initialises its decision variables: its
    start knot recorded and its timestep bounds set. *)
Definition allocation_entry (a : Arguments_) : HybridDircon :=
  snd (set_timestep_bounds a 0 (set_mode_start_ [0] (loop_entry a))).

(** The constructor goes on from there, and what it has built when it stops
    is what the allocation leaves. *)
Lemma allocation_entry_on_path :
  snd (initialize_decision_variables (two_modes 2 1 two_contacts) 0
         (allocation_entry (two_modes 2 1 two_contacts)))
  = snd (HybridDircon_ctor (two_modes 2 1 two_contacts)).
Proof. vm_compute. reflexivity. Qed.






(** * The reconstructed trajectories *)

(** ** Vectors filled from the front *)

(** [v] has [n] entries: those of [done], then the initial value [d]. *)
Definition filled_to {A : Type} (n : Z) (d : A) (done v : list A) : Prop :=
  size done <= n /\ v = done ++ replicate (Z.to_nat (n - size done)) d.

Lemma vec_new_filled {A} n (d : A) :
  0 <= n -> exists v, vec_new n d = Done v /\ filled_to n d [] v.
Proof.
  intros Hn. unfold vec_new. destruct (n <? 0) eqn:E; [lia |].
  eexists. split; [reflexivity |]. split; [unfold size; simpl; lia |].
  simpl. f_equal. unfold size. simpl. lia.
Qed.

Lemma filled_to_size {A} n (d : A) done v : filled_to n d done v -> size v = n.
Proof.
  intros [Hle ->]. unfold size in *. rewrite length_app, length_replicate. lia.
Qed.

Lemma filled_to_full {A} n (d : A) done v :
  filled_to n d done v -> size done = n -> v = done.
Proof.
  intros [Hle ->] Hn. rewrite Hn, Z.sub_diag. simpl. apply app_nil_r.
Qed.

Lemma vec_set_filled {A} n (d : A) done v x :
  filled_to n d done v -> size done < n ->
  exists v', vec_set v (size done) x = Done v' /\
             filled_to n d (done ++ [x]) v' /\
             vec_at v' (size done) = Done x.
Proof.
  intros Hf Hlt. pose proof (filled_to_size _ _ _ _ Hf) as Hsz.
  destruct Hf as [Hle ->]. unfold vec_set, vec_at.
  assert (H0 : 0 <= size done) by (unfold size; lia).
  destruct (0 <=? size done) eqn:E1; [| lia].
  destruct (size done <? size (done ++ replicate (Z.to_nat (n - size done)) d)) eqn:E2;
    [| lia].
  destruct (size done <? 0) eqn:E3; [lia |].
  simpl. eexists. split; [reflexivity |].
  assert (Hk : Z.to_nat (size done) = (length done + 0)%nat) by (unfold size; lia).
  rewrite Hk, insert_app_r.
  destruct (Z.to_nat (n - size done)) as [| m] eqn:Em; [lia |].
  simpl. split; [split |].
  - unfold size in *. rewrite length_app. simpl. lia.
  - rewrite <- app_assoc. simpl. do 3 f_equal. unfold size in *.
    rewrite length_app. simpl. lia.
  - rewrite lookup_app_r by lia. replace (length done + 0 - length done)%nat with 0%nat by lia.
    reflexivity.
Qed.

Lemma vec_at_in_range {A} (v : list A) i :
  0 <= i < size v -> exists x, vec_at v i = Done x /\ v !! Z.to_nat i = Some x.
Proof.
  intros Hi. destruct (lookup_lt_is_Some_2 v (Z.to_nat i)) as [x Hx];
    [unfold size in Hi; lia |].
  exists x. split; [apply vec_at_lookup; [lia | exact Hx] | exact Hx].
Qed.

Lemma segment_in_range {A} (v : list A) start n :
  0 <= start -> 0 <= n -> start + n <= size v ->
  segment v start n = Done (take (Z.to_nat n) (drop (Z.to_nat start) v)).
Proof.
  intros H1 H2 H3. unfold segment.
  destruct (0 <=? start) eqn:E1; [| lia]. destruct (0 <=? n) eqn:E2; [| lia].
  destruct (start + n <=? size v) eqn:E3; [| lia]. reflexivity.
Qed.

Lemma seqZ_snoc (j : Z) : 0 <= j -> seqZ 0 (j + 1) = seqZ 0 j ++ [j].
Proof.
  intros Hj. rewrite seqZ_app by lia. f_equal.
Qed.

Lemma take_snoc {A} (l : list A) (k : Z) x :
  0 <= k -> l !! Z.to_nat k = Some x ->
  take (Z.to_nat (k + 1)) l = take (Z.to_nat k) l ++ [x].
Proof.
  intros Hk Hx. replace (Z.to_nat (k + 1)) with (Datatypes.S (Z.to_nat k)) by lia.
  apply take_S_r. exact Hx.
Qed.

(** ** Objects the methods can be called on *)

(** The number of knots before mode [i]. *)
Definition sum_before (lengths : list Z) (i : nat) : Z :=
  foldr Z.add 0 (take i lengths).

(** Mode [i] has its entry in every per-mode member: a number of knots and a
    number of constraint rows that are not negative, a force block of their
    product, and the count of the knots before it as its start. *)
Definition mode_ok (o : HybridDircon) (i : nat) : bool :=
  match mode_lengths_ o !! i, mode_start_ o !! i, constraints_ o !! i,
        num_kinematic_constraints_ o !! i, force_vars_ o !! i with
  | Some len, Some start, Some _, Some c, Some fv =>
      (0 <=? len) && (0 <=? c) && (size fv =? c * len)
      && (start =? sum_before (mode_lengths_ o) i)
  | _, _, _, _, _ => false
  end.

(** The sizes the constructor gives the members of a transcription of at
    least one knot. *)
Definition well_formed (o : HybridDircon) : bool :=
  (0 <=? num_states_ (hd_base o)) && (0 <=? num_inputs_ (hd_base o))
  && (1 <=? N_ (hd_base o))
  && (size (h_vars_ (hd_base o)) =? N_ (hd_base o) - 1)
  && (size (x_vars_ (hd_base o)) =? num_states_ (hd_base o) * N_ (hd_base o))
  && (size (u_vars_ (hd_base o)) =? num_inputs_ (hd_base o) * N_ (hd_base o))
  && (num_modes_ o =? size (mode_lengths_ o))
  && (N_ (hd_base o) =? sum_before (mode_lengths_ o) (length (mode_lengths_ o)))
  && forallb (mode_ok o) (seq 0 (length (mode_lengths_ o))).

Lemma sum_before_S lengths i len :
  lengths !! i = Some len ->
  sum_before lengths (Datatypes.S i) = sum_before lengths i + len.
Proof.
  intros H. unfold sum_before. rewrite (take_S_r _ _ _ H), foldr_app. simpl.
  generalize (take i lengths). intros l. induction l as [| x l IH]; simpl; lia.
Qed.

Lemma sum_before_mono lengths i j :
  Forall (fun len => 0 <= len) lengths -> (i <= j)%nat ->
  sum_before lengths i <= sum_before lengths j.
Proof.
  intros Hpos. induction j as [| j IH]; intros Hij.
  - replace i with 0%nat by lia. lia.
  - destruct (decide (i = Datatypes.S j)) as [-> | Hne]; [lia |].
    specialize (IH ltac:(lia)).
    destruct (lengths !! j) as [len |] eqn:E.
    + rewrite (sum_before_S _ _ _ E).
      assert (0 <= len) by (eapply Forall_lookup_1 in Hpos; eauto). lia.
    + unfold sum_before in *. apply lookup_ge_None in E.
      rewrite (take_ge lengths (Datatypes.S j)) by lia.
      rewrite (take_ge lengths j) in IH by lia. exact IH.
Qed.

(** Block [k] of [n] entries of a vector. *)
Definition block {A : Type} (v : list A) (n k : Z) : list A :=
  take (Z.to_nat n) (drop (Z.to_nat (k * n)) v).

Section ReconstructionCorrect.

Variable XDot : Type.
Variable constrained_dynamics :
  DirconKinematicDataSet -> list Q -> list Q -> list Q -> XDot.
Variable DiscardGradient : XDot -> list Q.
Variable solution : DecisionVariable -> Q.
Variable obj : HybridDircon.

(** The solved state and input of knot [k] (counted over all modes). *)
Definition knot_state (k : Z) : list Q :=
  GetSolution solution (block (x_vars_ (hd_base obj)) (num_states_ (hd_base obj)) k).

Definition knot_input (k : Z) : list Q :=
  GetSolution solution (block (u_vars_ (hd_base obj)) (num_inputs_ (hd_base obj)) k).

Definition mode_length (i : Z) : Z := default 0 (mode_lengths_ obj !! Z.to_nat i).

(** The knot (counted over all modes) that knot 0 of mode [i] is. *)
Definition mode_first (i : Z) : Z := sum_before (mode_lengths_ obj) (Z.to_nat i).

Definition mode_constraints (i : Z) : DirconKinematicDataSet :=
  default (mkDataSet 0 []) (constraints_ obj !! Z.to_nat i).

(** The solved force of knot [j] of mode [i]. *)
Definition knot_force (i j : Z) : list Q :=
  GetSolution solution
    (block (default [] (force_vars_ obj !! Z.to_nat i))
           (default 0 (num_kinematic_constraints_ obj !! Z.to_nat i)) j).

(** The state derivative at knot [j] of mode [i]: the constrained dynamics
    of the mode at the knot's solved state, input and force, without its
    gradient. *)
Definition knot_derivative (i j : Z) : list Q :=
  DiscardGradient
    (constrained_dynamics (mode_constraints i)
       (knot_state (mode_first i + j)) (knot_input (mode_first i + j))
       (knot_force i j)).

(** One value per knot, mode after mode, for the modes before [i]. *)
Definition per_knot {A : Type} (f : Z -> Z -> A) (i : Z) : list A :=
  flat_map (fun i' => map (f i') (seqZ 0 (mode_length i'))) (seqZ 0 i).

Hypothesis Hwf : well_formed obj = true.

Let n := N_ (hd_base obj).

Lemma wf_numbers :
  0 <= num_states_ (hd_base obj) /\ 0 <= num_inputs_ (hd_base obj) /\ 1 <= n /\
  size (h_vars_ (hd_base obj)) = n - 1 /\
  size (x_vars_ (hd_base obj)) = num_states_ (hd_base obj) * n /\
  size (u_vars_ (hd_base obj)) = num_inputs_ (hd_base obj) * n /\
  num_modes_ obj = size (mode_lengths_ obj) /\
  n = sum_before (mode_lengths_ obj) (length (mode_lengths_ obj)).
Proof.
  unfold well_formed in Hwf. rewrite !andb_true_iff in Hwf.
  destruct Hwf as ((((((((H1 & H2) & H3) & H4) & H5) & H6) & H7) & H8) & _).
  subst n. repeat split; lia.
Qed.

Lemma wf_mode (i : Z) :
  0 <= i < num_modes_ obj ->
  exists len ds c fv,
    mode_lengths_ obj !! Z.to_nat i = Some len /\
    mode_start_ obj !! Z.to_nat i = Some (mode_first i) /\
    constraints_ obj !! Z.to_nat i = Some ds /\
    num_kinematic_constraints_ obj !! Z.to_nat i = Some c /\
    force_vars_ obj !! Z.to_nat i = Some fv /\
    0 <= len /\ 0 <= c /\ size fv = c * len.
Proof.
  intros Hi. destruct wf_numbers as (_ & _ & _ & _ & _ & _ & Hm & _).
  unfold well_formed in Hwf. rewrite !andb_true_iff in Hwf. destruct Hwf as [_ Hall].
  rewrite forallb_forall in Hall.
  specialize (Hall (Z.to_nat i)).
  assert (Hin : In (Z.to_nat i) (seq 0 (length (mode_lengths_ obj)))).
  { apply in_seq. unfold size in Hm. lia. }
  specialize (Hall Hin). unfold mode_ok in Hall.
  destruct (mode_lengths_ obj !! Z.to_nat i) as [len |]; [| discriminate].
  destruct (mode_start_ obj !! Z.to_nat i) as [start |]; [| discriminate].
  destruct (constraints_ obj !! Z.to_nat i) as [ds |]; [| discriminate].
  destruct (num_kinematic_constraints_ obj !! Z.to_nat i) as [c |]; [| discriminate].
  destruct (force_vars_ obj !! Z.to_nat i) as [fv |]; [| discriminate].
  rewrite !andb_true_iff in Hall. destruct Hall as (((H1 & H2) & H3) & H4).
  exists len, ds, c, fv. unfold mode_first.
  replace start with (sum_before (mode_lengths_ obj) (Z.to_nat i)) by lia.
  repeat split; try reflexivity; lia.
Qed.

Lemma wf_lengths : Forall (fun len => 0 <= len) (mode_lengths_ obj).
Proof.
  apply Forall_lookup. intros i len Hlen.
  destruct wf_numbers as (_ & _ & _ & _ & _ & _ & Hm & _).
  assert (Hi : (i < length (mode_lengths_ obj))%nat) by (eapply lookup_lt_Some; eauto).
  destruct (wf_mode (Z.of_nat i)) as (len' & _ & _ & _ & Hl & _ & _ & _ & _ & Hpos & _).
  { unfold size in Hm. lia. }
  rewrite Nat2Z.id in Hl. congruence.
Qed.

Lemma mode_first_next (i : Z) :
  0 <= i < num_modes_ obj ->
  mode_first (i + 1) = mode_first i + mode_length i /\
  0 <= mode_first i /\ 0 <= mode_length i /\
  mode_first (i + 1) <= n.
Proof.
  intros Hi. destruct (wf_mode i Hi) as (len & _ & _ & _ & Hl & _ & _ & _ & _ & Hpos & _).
  destruct wf_numbers as (_ & _ & _ & _ & _ & _ & Hm & Hn).
  unfold mode_first, mode_length. rewrite Hl. simpl.
  replace (Z.to_nat (i + 1)) with (Datatypes.S (Z.to_nat i)) by lia.
  rewrite (sum_before_S _ _ _ Hl). split; [reflexivity |].
  split; [| split; [exact Hpos |]].
  - change 0 with (sum_before (mode_lengths_ obj) 0).
    apply sum_before_mono; [apply wf_lengths | lia].
  - rewrite <- (sum_before_S _ _ _ Hl), Hn.
    apply sum_before_mono; [apply wf_lengths |]. unfold size in Hm. lia.
Qed.

Lemma size_per_knot {A} (f : Z -> Z -> A) (i : Z) :
  0 <= i <= num_modes_ obj -> size (per_knot f i) = mode_first i.
Proof.
  intros Hi. rewrite <- (Z2Nat.id i) by lia.
  assert (Hk : (Z.to_nat i <= Z.to_nat (num_modes_ obj))%nat) by lia.
  induction (Z.to_nat i) as [| k IH].
  - reflexivity.
  - specialize (IH ltac:(lia)).
    replace (Z.of_nat (Datatypes.S k)) with (Z.of_nat k + 1) by lia.
    destruct (mode_first_next (Z.of_nat k)) as (Hnext & _ & Hpos & _); [lia |].
    rewrite Hnext. unfold per_knot in *. rewrite seqZ_snoc by lia.
    rewrite flat_map_app. unfold size in *. rewrite length_app. simpl.
    rewrite app_nil_r, length_map, length_seqZ. lia.
Qed.

Lemma per_knot_next {A} (f : Z -> Z -> A) (i : Z) :
  0 <= i ->
  per_knot f (i + 1) = per_knot f i ++ map (f i) (seqZ 0 (mode_length i)).
Proof.
  intros Hi. unfold per_knot. rewrite seqZ_snoc by lia. rewrite flat_map_app. simpl.
  rewrite app_nil_r. reflexivity.
Qed.

(** *** What the accessors return on a well-formed object *)

Lemma fst_member_at {A} (member : HybridDircon -> list A) i o :
  fst (member_at member i o) = vec_at (member o) i.
Proof. unfold member_at, bind, gets, lift. destruct (vec_at (member o) i); reflexivity. Qed.

Lemma read_mode_start i :
  0 <= i < num_modes_ obj -> fst (member_at mode_start_ i obj) = Done (mode_first i).
Proof.
  intros Hi. destruct (wf_mode i Hi) as (len & ds & c & fv & _ & Hs & _).
  rewrite fst_member_at. apply vec_at_lookup; [lia | exact Hs].
Qed.

Lemma read_mode_length i :
  0 <= i < num_modes_ obj -> fst (member_at mode_lengths_ i obj) = Done (mode_length i).
Proof.
  intros Hi. destruct (wf_mode i Hi) as (len & ds & c & fv & Hl & _).
  rewrite fst_member_at. apply vec_at_lookup; [lia |]. unfold mode_length. rewrite Hl.
  reflexivity.
Qed.

Lemma read_constraints i :
  0 <= i < num_modes_ obj ->
  fst (member_at constraints_ i obj) = Done (mode_constraints i).
Proof.
  intros Hi. destruct (wf_mode i Hi) as (len & ds & c & fv & _ & _ & Hc & _).
  rewrite fst_member_at. apply vec_at_lookup; [lia |]. unfold mode_constraints. rewrite Hc.
  reflexivity.
Qed.

Lemma read_state k :
  0 <= k < n ->
  fst (state k obj)
  = Done (block (x_vars_ (hd_base obj)) (num_states_ (hd_base obj)) k).
Proof.
  intros Hk. destruct wf_numbers as (Hs & _ & _ & _ & Hx & _).
  unfold state, in_shooting, zoom, Shooting.state, bind, gets, lift. simpl.
  rewrite segment_in_range by nia. reflexivity.
Qed.

Lemma read_input k :
  0 <= k < n ->
  fst (input k obj)
  = Done (block (u_vars_ (hd_base obj)) (num_inputs_ (hd_base obj)) k).
Proof.
  intros Hk. destruct wf_numbers as (_ & Hu & _ & _ & _ & Hx & _).
  unfold input, in_shooting, zoom, Shooting.input, bind, gets, lift. simpl.
  rewrite segment_in_range by nia. reflexivity.
Qed.

Lemma read_force i j :
  0 <= i < num_modes_ obj -> 0 <= j < mode_length i ->
  fst (force i j obj)
  = Done (block (default [] (force_vars_ obj !! Z.to_nat i))
                (default 0 (num_kinematic_constraints_ obj !! Z.to_nat i)) j).
Proof.
  intros Hi Hj.
  destruct (wf_mode i Hi) as (len & ds & c & fv & Hl & _ & _ & Hc & Hf & Hlen & Hpos & Hsz).
  unfold mode_length in Hj. rewrite Hl in Hj. simpl in Hj.
  unfold force, force_vars, num_kinematic_constraints, member_at, bind, gets, lift.
  cbv beta.
  assert (E1 : vec_at (force_vars_ obj) i = Done fv) by (apply vec_at_lookup; [lia | exact Hf]).
  assert (E2 : vec_at (num_kinematic_constraints_ obj) i = Done c)
    by (apply vec_at_lookup; [lia | exact Hc]).
  rewrite E1, E2, Hf, Hc. simpl. rewrite segment_in_range by nia. reflexivity.
Qed.

(** *** The sample times *)

Lemma vec_set_in_range {A} (v : list A) i x :
  0 <= i < size v ->
  vec_set v i x = Done (<[Z.to_nat i := x]> v) /\
  size (<[Z.to_nat i := x]> v) = size v.
Proof.
  intros Hi. unfold vec_set. destruct (0 <=? i) eqn:E1; [| lia].
  destruct (i <? size v) eqn:E2; [| lia]. simpl. split; [reflexivity |].
  unfold size. rewrite length_insert. reflexivity.
Qed.

Lemma fst_N : fst (N obj) = Done n.
Proof. reflexivity. Qed.

Lemma fst_h_vars : fst (h_vars obj) = Done (h_vars_ (hd_base obj)).
Proof. reflexivity. Qed.

Lemma sample_times :
  exists times, GetSampleTimes solution obj = Done times /\ size times = n.
Proof.
  destruct wf_numbers as (_ & _ & Hn & Hh & _).
  unfold GetSampleTimes.
  match goal with
  | |- exists times, fst (?m tt) = Done times /\ _ =>
      destruct (wp_result m (fun r _ => size r = n) tt) as (times & Ht & Hs);
        [| exists times; split; assumption]
  end.
  apply wp_bind. unfold read. apply wp_lift. rewrite fst_N.
  destruct (vec_new_filled n 0%Q ltac:(lia)) as (v0 & Ev0 & Hv0).
  apply wp_bind, wp_lift. rewrite Ev0.
  pose proof (filled_to_size _ _ _ _ Hv0) as Hsz0.
  destruct (vec_set_in_range v0 0 0%Q ltac:(lia)) as [Ev1 Hsz1].
  apply wp_bind, wp_lift. rewrite Ev1.
  apply wp_bind, wp_lift. rewrite fst_h_vars.
  eapply wp_hoare.
  - apply hoare_for_loop_acc
      with (I := fun (j : Z) (acc : list Q) (_ : unit) => size acc = n)
           (R := fun _ : unit => False).
    intros j acc Hj s Hacc.
    change (wp (let* prev := lift (vec_at acc (j - 1)) in
                let* hi := lift (vec_at (h_vars_ (hd_base obj)) (j - 1)) in
                lift (vec_set acc j (prev + solution hi)%Q))
               (fun acc'' (_ : unit) => size acc'' = n) (fun _ => False) s).
    destruct (vec_at_in_range acc (j - 1) ltac:(lia)) as (prev & Ep & _).
    destruct (vec_at_in_range (h_vars_ (hd_base obj)) (j - 1) ltac:(lia)) as (hi & Eh & _).
    apply wp_bind, wp_lift. rewrite Ep. apply wp_bind, wp_lift. rewrite Eh.
    apply wp_lift.
    destruct (vec_set_in_range acc j (prev + solution hi)%Q ltac:(lia)) as [Es Hsz].
    rewrite Es. lia.
  - simpl. lia.
  - intros x s' Hx. exact Hx.
  - auto.
Qed.

Lemma vec_set_filled_at {A} m (d : A) done v k x :
  filled_to m d done v -> size done = k -> k < m ->
  exists v', vec_set v k x = Done v' /\
             filled_to m d (done ++ [x]) v' /\
             vec_at v' k = Done x.
Proof. intros Hf <- Hk. apply vec_set_filled; assumption. Qed.

Lemma size_take_times (times : list Q) k :
  size times = n -> 0 <= k <= n -> size (take (Z.to_nat k) times) = k.
Proof. intros Hs Hk. unfold size in *. rewrite length_take. lia. Qed.

Lemma size_map_seqZ {A} (f : Z -> A) k : 0 <= k -> size (map f (seqZ 0 k)) = k.
Proof. intros Hk. unfold size. rewrite length_map, length_seqZ. lia. Qed.

(** *** The input trajectory *)

Lemma input_trajectory times :
  GetSampleTimes solution obj = Done times -> size times = n ->
  ReconstructInputTrajectory solution obj
  = Done (FirstOrderHold times (map knot_input (seqZ 0 n))).
Proof.
  intros Et Hst. destruct wf_numbers as (_ & _ & Hn & _).
  unfold ReconstructInputTrajectory.
  match goal with
  | |- fst (?m tt) = Done ?r =>
      destruct (wp_result m (fun x _ => x = r) tt) as (x & Hx & ->); [| exact Hx]
  end.
  apply wp_bind, wp_lift. rewrite Et.
  apply wp_bind. unfold read. apply wp_lift. rewrite fst_N.
  destruct (vec_new_filled n 0%Q ltac:(lia)) as (tv0 & Etv & Htv).
  destruct (vec_new_filled n ([] : list Q) ltac:(lia)) as (iv0 & Eiv & Hiv).
  apply wp_bind, wp_lift. rewrite Etv. apply wp_bind, wp_lift. rewrite Eiv.
  apply wp_bind. eapply wp_hoare.
  - apply hoare_for_loop_acc
      with (I := fun (j : Z) (acc : list Q * list (list Q)) (_ : unit) =>
                   filled_to n 0%Q (take (Z.to_nat j) times) (fst acc) /\
                   filled_to n [] (map knot_input (seqZ 0 j)) (snd acc))
           (R := fun _ : unit => False).
    intros j acc Hj s [Hf1 Hf2].
    change (wp (let* t := lift (vec_at times j) in
                let* tv := lift (vec_set (fst acc) j t) in
                let* ui := lift (fst (input j obj)) in
                let* iv := lift (vec_set (snd acc) j (GetSolution solution ui)) in
                ret (tv, iv))
               (fun acc'' (_ : unit) =>
                  filled_to n 0%Q (take (Z.to_nat (j + 1)) times) (fst acc'') /\
                  filled_to n [] (map knot_input (seqZ 0 (j + 1))) (snd acc''))
               (fun _ => False) s).
    destruct (vec_at_in_range times j ltac:(lia)) as (t & Ett & Htl).
    apply wp_bind, wp_lift. rewrite Ett.
    destruct (vec_set_filled_at _ _ _ _ j t Hf1) as (tv & Es1 & Hf1' & _);
      [apply size_take_times; [exact Hst | lia] | lia |].
    apply wp_bind, wp_lift. rewrite Es1.
    apply wp_bind, wp_lift. rewrite read_input by lia.
    destruct (vec_set_filled_at _ _ _ _ j (knot_input j) Hf2) as (iv & Es2 & Hf2' & _);
      [apply size_map_seqZ; lia | lia |].
    apply wp_bind, wp_lift. unfold knot_input in Es2. rewrite Es2.
    apply wp_ret. simpl. split.
    + rewrite (take_snoc _ _ _ (proj1 Hj) Htl). exact Hf1'.
    + rewrite seqZ_snoc by lia. rewrite map_app. exact Hf2'.
  - simpl. split; [exact Htv | exact Hiv].
  - intros [tv iv] s' [Hf1 Hf2]. apply wp_ret. simpl in *.
    replace (Z.max 0 n) with n in * by lia.
    rewrite (filled_to_full _ _ _ _ Hf1), (filled_to_full _ _ _ _ Hf2).
    + rewrite take_ge by (unfold size in Hst; lia). reflexivity.
    + apply size_map_seqZ. lia.
    + apply size_take_times; [exact Hst | lia].
  - auto.
Qed.

(** *** The state trajectory *)

Lemma wp_assign {A} (get : Locals XDot -> list A)
    (set : list A -> Locals XDot -> Locals XDot) k (x : A)
    (Q : unit -> Locals XDot -> Prop) R s m d done :
  filled_to m d done (get s) -> size done = k -> k < m ->
  (forall v', filled_to m d (done ++ [x]) v' -> vec_at v' k = Done x -> Q tt (set v' s)) ->
  wp (assign XDot get set k x) Q R s.
Proof.
  intros Hf Hs Hk HQ. unfold assign. apply wp_bind, wp_gets.
  destruct (vec_set_filled_at _ _ _ _ k x Hf Hs Hk) as (v' & Ev & Hf' & Hat).
  apply wp_bind, wp_lift. rewrite Ev. apply wp_modify. apply HQ; assumption.
Qed.

Variable times : list Q.
Hypothesis Htimes : size times = n.

(** The local vectors when the loops stand at knot [j] of mode [i]: the
    knots before it are written, the others hold their initial value. *)
Definition written (i j : Z) (s : Locals XDot) : Prop :=
  filled_to n 0%Q (take (Z.to_nat (mode_first i + j)) times) (times_vec s) /\
  filled_to n [] (map knot_state (seqZ 0 (mode_first i + j))) (states s) /\
  filled_to n [] (map knot_input (seqZ 0 (mode_first i + j))) (inputs s) /\
  filled_to n [] (per_knot knot_force i ++ map (knot_force i) (seqZ 0 j)) (forces s) /\
  filled_to n [] (per_knot knot_derivative i ++ map (knot_derivative i) (seqZ 0 j))
            (derivatives s).

Lemma size_per_knot_upto {A} (f : Z -> Z -> A) i j :
  0 <= i < num_modes_ obj -> 0 <= j ->
  size (per_knot f i ++ map (f i) (seqZ 0 j)) = mode_first i + j.
Proof.
  intros Hi Hj. pose proof (size_per_knot f i ltac:(lia)) as H1.
  pose proof (size_map_seqZ (f i) j Hj) as H2.
  unfold size in *. rewrite length_app. lia.
Qed.

Lemma written_knot i j s :
  0 <= i < num_modes_ obj -> 0 <= j < mode_length i -> written i j s ->
  wp (reconstruct_knot XDot constrained_dynamics DiscardGradient solution obj times i j)
     (fun _ s' => written i (j + 1) s') (fun _ => False) s.
Proof.
  intros Hi Hj (Ht & Hx & Hu & Hl & Hd).
  destruct (mode_first_next i Hi) as (Hnext & Hfirst & Hlen & Hle).
  assert (Hk : 0 <= mode_first i + j < n) by lia.
  unfold reconstruct_knot, read.
  apply wp_bind, wp_lift. rewrite read_mode_start by exact Hi.
  destruct (vec_at_in_range times (mode_first i + j) ltac:(lia)) as (t & Ett & Htl).
  apply wp_bind, wp_lift. rewrite Ett.
  apply wp_bind.
  eapply wp_assign; [exact Ht | apply size_take_times; [exact Htimes | lia] | lia |].
  intros vt Hvt _.
  apply wp_bind, wp_lift. rewrite read_state by exact Hk.
  apply wp_bind.
  eapply wp_assign; [exact Hx | apply size_map_seqZ; lia | lia |].
  intros vx Hvx Hatx.
  apply wp_bind, wp_lift. rewrite read_input by exact Hk.
  apply wp_bind.
  eapply wp_assign; [exact Hu | apply size_map_seqZ; lia | lia |].
  intros vu Hvu Hatu.
  apply wp_bind, wp_lift. rewrite read_force by assumption.
  apply wp_bind.
  eapply wp_assign; [exact Hl | apply size_per_knot_upto; [exact Hi | lia] | lia |].
  intros vl Hvl Hatl.
  apply wp_bind, wp_lift. rewrite read_constraints by exact Hi.
  apply wp_bind, wp_gets, wp_bind, wp_lift. simpl. rewrite Hatx.
  apply wp_bind, wp_gets, wp_bind, wp_lift. simpl. rewrite Hatu.
  apply wp_bind, wp_gets, wp_bind, wp_lift. simpl. rewrite Hatl.
  apply wp_bind. unfold updateData. apply wp_modify.
  apply wp_bind. unfold getXDot. apply wp_bind, wp_gets. simpl.
  rewrite Nat.eqb_refl. apply wp_ret.
  eapply wp_assign; [exact Hd | apply size_per_knot_upto; [exact Hi | lia] | lia |].
  intros vd Hvd _. unfold written. simpl.
  replace (mode_first i + (j + 1)) with (mode_first i + j + 1) by lia.
  rewrite (take_snoc _ _ _ (proj1 Hk) Htl).
  rewrite !seqZ_snoc by lia. rewrite !map_app, !app_assoc. simpl.
  split; [exact Hvt | split; [exact Hvx | split; [exact Hvu | split; [exact Hvl | exact Hvd]]]].
Qed.

Lemma written_next_mode i s :
  0 <= i < num_modes_ obj -> written i (mode_length i) s -> written (i + 1) 0 s.
Proof.
  intros Hi (Ht & Hx & Hu & Hl & Hd).
  destruct (mode_first_next i Hi) as (Hnext & _).
  unfold written. rewrite !per_knot_next by lia. rewrite Hnext, Z.add_0_r.
  simpl. rewrite !app_nil_r.
  split; [exact Ht | split; [exact Hx | split; [exact Hu | split; [exact Hl | exact Hd]]]].
Qed.

Lemma written_mode i :
  0 <= i < num_modes_ obj ->
  hoare (written i 0)
        (let* len := read obj (member_at mode_lengths_ i) in
         for_loop 0 len (fun j =>
           reconstruct_knot XDot constrained_dynamics DiscardGradient solution obj
                            times i j))
        (fun _ => written (i + 1) 0) (fun _ => False).
Proof.
  intros Hi. apply (proj2 (hoare_wp _ _ _ _)). intros s Hs.
  destruct (mode_first_next i Hi) as (_ & _ & Hlen & _).
  apply wp_bind. unfold read. apply wp_lift. rewrite read_mode_length by exact Hi.
  eapply wp_hoare.
  - apply hoare_for_loop with (I := fun j s' => written i j s') (R := fun _ => False).
    intros j Hj s' Hs'. apply written_knot; assumption.
  - exact Hs.
  - intros x s' Hs'. apply written_next_mode; [exact Hi |].
    replace (Z.max 0 (mode_length i)) with (mode_length i) in Hs' by lia. exact Hs'.
  - auto.
Qed.

Lemma state_trajectory cache :
  GetSampleTimes solution obj = Done times ->
  ReconstructStateTrajectory XDot constrained_dynamics DiscardGradient solution obj cache
  = Done (Cubic times (map knot_state (seqZ 0 n))
                (per_knot knot_derivative (num_modes_ obj))).
Proof.
  intros Et. destruct wf_numbers as (_ & _ & Hn & _ & _ & _ & Hm & Hsum).
  assert (HM : 0 <= num_modes_ obj) by (unfold size in Hm; lia).
  assert (Hlast : mode_first (num_modes_ obj) = n).
  { unfold mode_first. rewrite Hm. unfold size. rewrite Nat2Z.id. symmetry. exact Hsum. }
  unfold ReconstructStateTrajectory. rewrite Et, fst_N.
  destruct (vec_new_filled n 0%Q ltac:(lia)) as (tv & Etv & Htv).
  destruct (vec_new_filled n ([] : list Q) ltac:(lia)) as (mv & Emv & Hmv).
  rewrite Etv, Emv. cbv zeta.
  match goal with
  | |- match fst (?m ?s0) with _ => _ end = _ =>
      destruct (wp_result m (fun _ s' => written (num_modes_ obj) 0 s') s0)
        as (x & Hx & Hw)
  end.
  - apply wp_bind. unfold read. apply wp_lift. simpl.
    eapply wp_hoare.
    + apply hoare_for_loop with (I := fun i s' => written i 0 s') (R := fun _ => False).
      intros i Hi. apply written_mode. exact Hi.
    + unfold written. simpl.
      split; [exact Htv | split; [exact Hmv | split; [exact Hmv | split; exact Hmv]]].
    + intros y s' Hs'. replace (Z.max 0 (num_modes_ obj)) with (num_modes_ obj) in Hs' by lia.
      exact Hs'.
    + auto.
  - rewrite Hx. destruct Hw as (Ht & Hx' & _ & _ & Hd).
    rewrite Z.add_0_r, Hlast in Ht, Hx'. simpl in Hd. rewrite app_nil_r in Hd.
    rewrite (filled_to_full _ _ _ _ Ht), (filled_to_full _ _ _ _ Hx'),
      (filled_to_full _ _ _ _ Hd).
    + rewrite take_ge by (unfold size in Htimes; lia). reflexivity.
    + rewrite size_per_knot by lia. exact Hlast.
    + apply size_map_seqZ. lia.
    + apply size_take_times; [exact Htimes | lia].
Qed.

End ReconstructionCorrect.

(** C9: on a transcription whose members have the sizes the constructor
    gives them, [ReconstructStateTrajectory] returns the cubic spline over
    the sample times whose value at each knot is the solved state of the knot
    and whose derivative there is the constrained dynamics of the knot's mode
    at the knot's solved state, input and force, with the gradient discarded;
    [ReconstructInputTrajectory] returns the first-order hold of the solved
    inputs over the same sample times. *)
Theorem reconstructed_trajectories (XDot : Type)
    (constrained_dynamics : DirconKinematicDataSet -> list Q -> list Q -> list Q -> XDot)
    (DiscardGradient : XDot -> list Q) (solution : DecisionVariable -> Q)
    (obj : HybridDircon) (cache : nat -> option XDot) :
  well_formed obj = true ->
  exists times,
    GetSampleTimes solution obj = Done times /\
    size times = N_ (hd_base obj) /\
    ReconstructStateTrajectory XDot constrained_dynamics DiscardGradient solution obj
                               cache
    = Done (Cubic times
              (map (knot_state solution obj) (seqZ 0 (N_ (hd_base obj))))
              (per_knot obj
                 (knot_derivative XDot constrained_dynamics DiscardGradient
                                  solution obj)
                 (num_modes_ obj))) /\
    ReconstructInputTrajectory solution obj
    = Done (FirstOrderHold times
              (map (knot_input solution obj) (seqZ 0 (N_ (hd_base obj))))).
Proof.
  intros Hwf. destruct (sample_times solution obj Hwf) as (times & Et & Hs).
  exists times. split; [exact Et |]. split; [exact Hs |]. split.
  - apply state_trajectory; assumption.
  - apply input_trajectory; assumption.
Qed.

(** A solution giving every variable its position in the program. *)
Definition by_position (v : DecisionVariable) : Q := inject_Z (Z.of_nat (var_id v)).

(** The object the constructor is meant to build for a first mode of two
    knots with one constraint row and a second of one knot: the base class,
    the bookkeeping of the two modes and their variable blocks. *)
Definition two_mode_object : HybridDircon :=
  snd ((in_shooting (Shooting.ctor 1 2 3 (1 # 100000000)%Q (100000000 # 1)%Q) >>
        modify (set_modes_ 2 [2; 1]) >>
        modify (set_tree_ pendulum) >>
        modify (set_constraints_ [one_row; unconstrained]) >>
        modify (set_mode_start_ [0; 2]) >>
        initialize_decision_variables (two_modes 2 1 one_row) 0 >>
        initialize_decision_variables (two_modes 2 1 one_row) 1) blank).

Lemma reconstructed_trajectories_witness :
  well_formed two_mode_object = true /\
  exists times,
    GetSampleTimes by_position two_mode_object = Done times /\
    size times = N_ (hd_base two_mode_object) /\
    ReconstructStateTrajectory (list Q) (fun _ x u l => x ++ u ++ l) (fun d => d)
                               by_position two_mode_object (fun _ => None)
    = Done (Cubic times
              (map (knot_state by_position two_mode_object)
                   (seqZ 0 (N_ (hd_base two_mode_object))))
              (per_knot two_mode_object
                 (knot_derivative (list Q) (fun _ x u l => x ++ u ++ l) (fun d => d)
                                  by_position two_mode_object)
                 (num_modes_ two_mode_object))) /\
    ReconstructInputTrajectory by_position two_mode_object
    = Done (FirstOrderHold times
              (map (knot_input by_position two_mode_object)
                   (seqZ 0 (N_ (hd_base two_mode_object))))).
Proof.
  split; [vm_compute; reflexivity |].
  apply (reconstructed_trajectories (list Q) (fun _ x u l => x ++ u ++ l) (fun d => d)
           by_position two_mode_object (fun _ => None)).
  vm_compute. reflexivity.
Defined.


(** * Further properties of the transcription *)

(** ** Where the constructor stops *)

Lemma wp_mono {S A} (m : M S A) (Q Q' : A -> S -> Prop) (R R' : S -> Prop) s :
  wp m Q R s ->
  (forall x s', Q x s' -> Q' x s') -> (forall s', R s' -> R' s') ->
  wp m Q' R' s.
Proof. unfold wp. destruct (m s) as [[x | w] s']; auto. Qed.

Lemma wp_run {S A} (m : M S A) (Q : A -> S -> Prop) (R : S -> Prop) s :
  wp m Q R s ->
  match fst (m s) with Done x => Q x (snd (m s)) | Abort _ => R (snd (m s)) end.
Proof. unfold wp. destruct (m s) as [[x | w] s']; auto. Qed.

(** X1: for a mode after the first, on an object whose post-impact member
    holds the one block of n_v > 0 variables the constructor assigns to it,
    and with an offset [mode * n_v] that an [int] can hold,
    [v_post_impact_vars_by_mode(mode)] leaves the member and
    [state_vars_by_mode(mode, 0)] stops: the state of the first knot of such
    a mode is never resolved. *)
Theorem seam_state_never_resolved (o : HybridDircon) (mode : Z) :
  0 < mode ->
  0 < get_num_velocities (tree_ o) ->
  mode * get_num_velocities (tree_ o) <= 2 ^ 31 - 1 ->
  size (v_post_impact_vars_ o) = get_num_velocities (tree_ o) ->
  (exists w, fst (v_post_impact_vars_by_mode mode o) = Abort w) /\
  (exists w, fst (state_vars_by_mode mode 0 o) = Abort w).
Proof.
  intros Hm Hv Hint Hs.
  assert (Hvp : fst (v_post_impact_vars_by_mode mode o) = Abort "segment out of range").
  { unfold v_post_impact_vars_by_mode, bind, gets, lift. simpl.
    rewrite int_wrap_in_range by nia.
    rewrite segment_out_of_range by nia. reflexivity. }
  split; [exists "segment out of range"%string; exact Hvp |].
  assert (H : wp (state_vars_by_mode mode 0) (fun _ _ => False) (fun _ => True) o).
  { unfold state_vars_by_mode.
    replace ((0 =? 0) && (0 <? mode)) with true by (symmetry; apply andb_true_iff; split; lia).
    cbv zeta.
    apply wp_bind, wp_readonly; [auto with readonly | exact I | intros x _].
    apply wp_bind, wp_readonly; [auto with readonly | exact I | intros start _].
    apply wp_bind, wp_gets.
    apply wp_bind, wp_lift. destruct (segment _ _ _); [| exact I].
    apply wp_bind, wp_lift. destruct (comma_write _ _ _); [| exact I].
    apply wp_bind, wp_readonly; [auto with readonly | exact I | intros v Hdone].
    rewrite Hvp in Hdone. discriminate. }
  apply wp_run in H.
  destruct (fst (state_vars_by_mode mode 0 o)) as [b | w]; [destruct H | exists w; reflexivity].
Qed.

Lemma seam_state_never_resolved_witness :
  (exists w, fst (v_post_impact_vars_by_mode 1 seam_object) = Abort w) /\
  (exists w, fst (state_vars_by_mode 1 0 seam_object) = Abort w).
Proof.
  apply (seam_state_never_resolved seam_object 1);
    [lia | vm_compute; reflexivity | apply Z.leb_le; vm_compute; reflexivity
    | vm_compute; reflexivity].
Defined.

(** ** The collocation constraints are never bound *)

(** On an object with a state dimension above 0, "Adding dynamic
    constraints" changes nothing: where its loop over the intervals has a
    turn, the turn stops at the state block of the interval's first knot. *)
Lemma dynamics_step_run (a : Arguments_) (i : Z) (o : HybridDircon) :
  0 < num_states_ (hd_base o) ->
  wp (add_dynamic_constraints a i)
     (fun _ s => s = o /\
                 forall len, vec_at (mode_lengths_ o) i = Done len -> len <= 1)
     (fun s => s = o) o.
Proof.
  intros Hn. unfold add_dynamic_constraints.
  apply wp_bind, wp_member_at. destruct (vec_at (constraints_ o) i) as [ds | w]; [| reflexivity].
  cbv zeta.
  apply wp_bind, wp_readonly; [auto with readonly | reflexivity | intros ns _].
  apply wp_bind, wp_assert. destruct (_ =? _); [| reflexivity].
  apply wp_bind, wp_member_at.
  destruct (vec_at (mode_lengths_ o) i) as [len | w] eqn:El; [| reflexivity].
  eapply wp_hoare with (P := fun s => s = o /\ 0 = 0).
  - apply hoare_for_loop with (I := fun j s => s = o /\ j = 0) (R := fun s => s = o).
    intros j Hj. apply (proj2 (hoare_wp _ _ _ _)). intros s [-> ->].
    apply wp_bind, wp_readonly; [auto with readonly | reflexivity | intros start _].
    apply wp_bind, wp_readonly; [auto with readonly | reflexivity | intros hv _].
    apply wp_bind, wp_lift. destruct (segment _ _ _); [| reflexivity].
    apply wp_bind. eapply wp_mono;
      [apply state_vars_by_mode_hoare; exact Hn | intros x s' [] | auto].
  - split; reflexivity.
  - intros x s' [-> Hmax]. split; [reflexivity |].
    intros len' Hlen'. injection Hlen' as <-. lia.
  - auto.
Qed.

(** On such an object "Adding kinematic constraints" stops, and changes
    nothing: at the state block of the first interior knot, or at that of
    the start knot when the mode has no interior knot. *)
Lemma kinematic_step_run (a : Arguments_) (i : Z) (o : HybridDircon) :
  0 < num_states_ (hd_base o) ->
  wp (add_kinematic_constraints a i) (fun _ _ => False) (fun s => s = o) o.
Proof.
  intros Hn. unfold add_kinematic_constraints.
  apply wp_bind, wp_member_at. destruct (vec_at (constraints_ o) i) as [ds | w]; [| reflexivity].
  apply wp_bind, wp_lift. destruct (vec_at (arg_options a) i) as [opt | w]; [| reflexivity].
  cbv zeta.
  apply wp_bind, wp_member_at.
  destruct (vec_at (mode_lengths_ o) i) as [len | w]; [| reflexivity].
  apply wp_bind. eapply wp_hoare with (P := fun s => s = o).
  - apply hoare_for_loop with (I := fun (_ : Z) s => s = o) (R := fun s => s = o).
    intros j Hj. apply (proj2 (hoare_wp _ _ _ _)). intros s ->.
    apply wp_bind, wp_readonly; [auto with readonly | reflexivity | intros start _].
    apply wp_bind. eapply wp_mono;
      [apply state_vars_by_mode_hoare; exact Hn | intros x s' [] | auto].
  - reflexivity.
  - intros u s' ->.
    apply wp_bind, wp_lift. cbv beta iota zeta.
    apply wp_bind. eapply wp_mono;
      [apply state_vars_by_mode_hoare; exact Hn | intros x s' [] | auto].
  - auto.
Qed.

(** The dynamics and the kinematic constraints among the bindings. *)
Definition is_collocation_constraint (b : Binding) : bool :=
  match constraint b with
  | DynamicConstraint _ | KinematicConstraint _ => true
  | _ => false
  end.

Definition collocation_bindings (p : MathematicalProgram) : list Binding :=
  List.filter is_collocation_constraint (bindings_ p).

(** The state the loop over the modes keeps: a state dimension above 0 and
    a program without a dynamics or a kinematic constraint. *)
Definition unbound (o : HybridDircon) : Prop :=
  0 < num_states_ (hd_base o) /\ collocation_bindings (program o) = [].

Lemma unbound_in_program {A} (m : M MathematicalProgram A) :
  stable (fun p => collocation_bindings p = []) m ->
  stable unbound (in_program m).
Proof.
  intros Hm o [Hn Hb]. specialize (Hm (program o) Hb).
  unfold in_program, zoom. destruct (m (program o)) as [[x | w] p']; split; assumption.
Qed.

Lemma unbound_NewContinuousVariables rows name :
  stable (fun p => collocation_bindings p = [])
         (Program.NewContinuousVariables rows name).
Proof.
  intros p Hp. unfold Program.NewContinuousVariables.
  destruct (rows <? 0); exact Hp.
Qed.

Lemma unbound_AddConstraint c vars :
  is_collocation_constraint (mkBinding c vars) = false ->
  stable (fun p => collocation_bindings p = []) (Program.AddConstraint c vars).
Proof.
  intros Hc p Hp. rewrite AddConstraint_run. unfold collocation_bindings in *. simpl.
  rewrite List.filter_app, Hp. simpl. rewrite Hc. reflexivity.
Qed.

(** Discharges [stable unbound] goals over the statements that add timestep
    constraints and allocate variables. *)
Ltac unbound_tac :=
  stable_tac;
  try first
    [ apply unbound_in_program;
      first [ apply unbound_NewContinuousVariables
            | apply unbound_AddConstraint; reflexivity ]
    | apply stable_modify; intros ? H; exact H ].

(** The base class constructor, where it returns, has checked the state
    dimension and the number of knots; it binds the timestep range only. *)
Lemma base_ctor_unbound nu ns n lo hi :
  hoare (fun o => o = blank)
        (in_shooting (Shooting.ctor nu ns n lo hi))
        (fun _ o => unbound o /\ 1 < n)
        (fun o => collocation_bindings (program o) = []).
Proof.
  intros o ->.
  unfold in_shooting, zoom, Shooting.ctor, bind, modify, Shooting.in_base, zoom,
    Program.NewContinuousVariables, DRAKE_DEMAND, ret, abort,
    Program.AddBoundingBoxConstraint, Program.AddConstraint, modify.
  simpl.
  destruct (n - 1 <? 0) eqn:E1; simpl; [reflexivity |].
  destruct (ns * n <? 0) eqn:E2; simpl; [reflexivity |].
  destruct (nu * n <? 0) eqn:E3; simpl; [reflexivity |].
  destruct (1 <? n) eqn:E4; simpl; [| reflexivity].
  destruct (0 <? ns) eqn:E5; simpl; [| reflexivity].
  repeat (match goal with
          | |- context [if ?c then _ else _] => destruct c
          end; simpl); try reflexivity.
  apply Z.ltb_lt in E4, E5. repeat split; assumption.
Qed.

Section ConstructorStops.

Variable a : Arguments_.

(** One turn of the loop over the modes does not get past the kinematic
    constraints, and binds no collocation constraint before. *)
Lemma mode_body_unbound i counter :
  hoare unbound (mode_body a i counter) (fun _ _ => False)
        (fun o => collocation_bindings (program o) = []).
Proof.
  assert (HR : forall s, unbound s -> collocation_bindings (program s) = [])
    by (intros s [_ Hs]; exact Hs).
  unfold mode_body.
  apply hoare_seq_stable; [apply stable_gets | exact HR | intros starts].
  apply hoare_seq_stable; [apply stable_modify; intros o Ho; exact Ho | exact HR | intros u0].
  apply hoare_seq_stable;
    [unfold set_timestep_bounds; unbound_tac | exact HR | intros u1].
  apply hoare_seq_stable;
    [unfold initialize_decision_variables; unbound_tac | exact HR | intros u2].
  eapply hoare_bind with (Q1 := fun _ => unbound).
  - apply (proj2 (hoare_wp _ _ _ _)). intros o Ho.
    eapply wp_mono; [apply dynamics_step_run; apply Ho | |].
    + intros x s' [-> _]. exact Ho.
    + intros s' ->. apply HR, Ho.
  - intros u3. eapply hoare_bind with (Q1 := fun _ _ => False); [| intros x s []].
    apply (proj2 (hoare_wp _ _ _ _)). intros o Ho.
    eapply wp_mono; [apply kinematic_step_run; apply Ho | intros x s' [] |].
    intros s' ->. apply HR, Ho.
Qed.

(** The constructor, from the blank object: it stops, and the program it
    had built holds no collocation constraint. *)
Lemma construct_unbound :
  hoare (fun o => o = blank) (construct a) (fun _ _ => False)
        (fun o => collocation_bindings (program o) = []).
Proof.
  assert (HR : forall s, unbound s -> collocation_bindings (program s) = [])
    by (intros s [_ Hs]; exact Hs).
  unfold construct.
  eapply hoare_bind; [apply base_ctor_unbound | intros u].
  apply hoare_pure. intros Hknots.
  apply (proj2 (hoare_wp _ _ _ _)). intros o Ho.
  apply wp_bind, wp_modify, wp_bind, wp_gets.
  apply wp_bind, wp_assert. destruct (_ =? _); [| apply HR, Ho].
  apply wp_bind, wp_assert. destruct (_ =? _); [| apply HR, Ho].
  apply wp_bind, wp_assert. destruct (_ =? _); [| apply HR, Ho].
  apply wp_bind, wp_modify, wp_bind, wp_modify, wp_bind.
  change (num_modes_ (set_modes_ (size (arg_num_time_samples a))
                                 (arg_num_time_samples a) o))
    with (size (arg_num_time_samples a)).
  unfold for_loop_acc.
  destruct (arg_num_time_samples a) as [| n0 rest] eqn:El;
    [unfold accumulate in Hknots; simpl in Hknots; lia |].
  replace (Z.to_nat (size (n0 :: rest) - 0)) with (Datatypes.S (length rest))
    by (unfold size; simpl; lia).
  simpl for_range_acc. apply wp_bind.
  eapply wp_hoare; [apply mode_body_unbound | exact Ho | intros x s' [] | auto].
Qed.

End ConstructorStops.

(** X2: with assertions armed, the constructor never returns an object for a
    tree with at least one velocity: where the base class and the size
    assertions let it reach the loop over the modes, the first mode does not
    get past the state block of the first knot it resolves, when nothing
    stops it earlier. *)
Theorem constructor_stops (a : Arguments_) :
  0 < get_num_velocities (arg_tree a) ->
  exists w, fst (HybridDircon_ctor a) = Abort w.
Proof.
  intros Hv. unfold HybridDircon_ctor.
  pose proof (construct_unbound a blank eq_refl) as H.
  destruct (construct a blank) as [[x | w] s']; [destruct H | exists w; reflexivity].
Qed.

Lemma constructor_stops_witness :
  exists w, fst (HybridDircon_ctor (two_modes 2 2 two_contacts)) = Abort w.
Proof. apply (constructor_stops (two_modes 2 2 two_contacts)). vm_compute. reflexivity. Defined.

(** X5: for a tree with at least one position or velocity, the program the
    constructor has built when it stops holds no dynamics constraint and no
    kinematic constraint: none of its modes binds one. *)
Theorem no_collocation_constraint_bound (a : Arguments_) :
  0 < get_num_positions (arg_tree a) + get_num_velocities (arg_tree a) ->
  List.filter is_collocation_constraint
    (bindings_ (program (snd (HybridDircon_ctor a)))) = [].
Proof.
  intros Hn. unfold HybridDircon_ctor.
  pose proof (construct_unbound a blank eq_refl) as H.
  destruct (construct a blank) as [[x | w] s']; [destruct H | exact H].
Qed.

Lemma no_collocation_constraint_bound_witness :
  List.filter is_collocation_constraint
    (bindings_ (program (snd (HybridDircon_ctor three_knot_arguments)))) = [].
Proof. apply (no_collocation_constraint_bound three_knot_arguments). vm_compute. reflexivity. Defined.

(** X12: on an object with a state dimension above 0, "Adding dynamic
    constraints" leaves the object as it was, whether it returns or stops,
    so it binds no constraint; and for a mode of two knots or more it
    does not return. *)
Theorem dynamics_constraints_never_bound (a : Arguments_) (i : Z) (o : HybridDircon) :
  0 < num_states_ (hd_base o) ->
  snd (add_dynamic_constraints a i o) = o /\
  (forall len, vec_at (mode_lengths_ o) i = Done len -> 2 <= len ->
               exists w, fst (add_dynamic_constraints a i o) = Abort w).
Proof.
  intros Hn. pose proof (wp_run _ _ _ _ (dynamics_step_run a i o Hn)) as H.
  destruct (fst (add_dynamic_constraints a i o)) as [u | w].
  - destruct H as [H Hlen]. split; [exact H |].
    intros len Hl Hge. specialize (Hlen len Hl). lia.
  - split; [exact H |]. intros len _ _. exists w. reflexivity.
Qed.

Lemma dynamics_constraints_never_bound_witness :
  snd (add_dynamic_constraints three_knot_arguments 0 three_knot_mode) = three_knot_mode /\
  exists w, fst (add_dynamic_constraints three_knot_arguments 0 three_knot_mode) = Abort w.
Proof.
  destruct (dynamics_constraints_never_bound three_knot_arguments 0 three_knot_mode)
    as [Hsame Hstop]; [vm_compute; reflexivity |].
  split; [exact Hsame |].
  apply (Hstop 3); [vm_compute; reflexivity | lia].
Defined.

(** X13: on an object with a state dimension above 0, "Adding kinematic
    constraints" stops and leaves the object as it was: no kinematic
    constraint is bound, for no mode and no options. *)
Theorem kinematic_constraints_never_bound (a : Arguments_) (i : Z) (o : HybridDircon) :
  0 < num_states_ (hd_base o) ->
  (exists w, fst (add_kinematic_constraints a i o) = Abort w) /\
  snd (add_kinematic_constraints a i o) = o.
Proof.
  intros Hn. pose proof (wp_run _ _ _ _ (kinematic_step_run a i o Hn)) as H.
  destruct (fst (add_kinematic_constraints a i o)) as [u | w]; [destruct H |].
  split; [exists w; reflexivity | exact H].
Qed.

Lemma kinematic_constraints_never_bound_witness :
  (exists w, fst (add_kinematic_constraints three_knot_arguments 0 three_knot_mode) = Abort w) /\
  snd (add_kinematic_constraints three_knot_arguments 0 three_knot_mode) = three_knot_mode.
Proof.
  apply (kinematic_constraints_never_bound three_knot_arguments 0 three_knot_mode).
  vm_compute. reflexivity.
Defined.

(** ** What the running cost adds up to *)

(** The sum of [term i] over [n] consecutive knots from [lo] on. *)
Definition sum_over (lo n : Z) (term : Z -> Q) : Q :=
  fold_right (fun i acc => term i + acc)%Q 0%Q (seqZ lo n).

(** What [DoAddRunningCost] adds to the objective, for the running cost
    [g i] of knot [i] and the timestep [h i] of interval [i], over [n]
    knots: the end terms a quarter of cost times timestep, and the interior
    terms of the knots 1, ..., n-3. *)
Definition added_cost (g h : Z -> Q) (n : Z) : Q :=
  (g 0%Z * h 0%Z / 4
   + sum_over 1 (n - 3) (fun i => g i * (h (i - 1)%Z + h i) / 2)
   + g (n - 1)%Z * h (n - 2)%Z / 4)%Q.

(** The knots of a program with timesteps as decision variables: at least
    two, with the three blocks of the base class sized for them. *)
Definition knots_allocated (o : HybridDircon) : bool :=
  timesteps_are_decision_variables_ (hd_base o)
  && (2 <=? N_ (hd_base o))
  && (0 <=? num_states_ (hd_base o)) && (0 <=? num_inputs_ (hd_base o))
  && (size (h_vars_ (hd_base o)) =? N_ (hd_base o) - 1)
  && (size (x_vars_ (hd_base o)) =? num_states_ (hd_base o) * N_ (hd_base o))
  && (size (u_vars_ (hd_base o)) =? num_inputs_ (hd_base o) * N_ (hd_base o)).

(** What the base class holds beside the program. *)
Definition shape (o : HybridDircon) :=
  (num_inputs_ (hd_base o), num_states_ (hd_base o), N_ (hd_base o),
   timesteps_are_decision_variables_ (hd_base o), fixed_timestep_ (hd_base o),
   h_vars_ (hd_base o), x_vars_ (hd_base o), u_vars_ (hd_base o)).

Lemma sum_over_snoc lo n term :
  0 <= n -> (sum_over lo (n + 1) term == sum_over lo n term + term (lo + n)%Z)%Q.
Proof.
  intros Hn. unfold sum_over. rewrite seqZ_app by lia.
  replace (seqZ (lo + n) 1) with [lo + n] by reflexivity.
  generalize (seqZ lo n). intros l. induction l as [| x l IH]; simpl.
  - ring.
  - rewrite IH. ring.
Qed.

Lemma total_cost_AddCost env e p p' :
  Program.AddCost e p = (Done tt, p') ->
  (total_cost env p' == total_cost env p + eval env e)%Q.
Proof.
  unfold Program.AddCost, modify. intros H. injection H as <-.
  unfold total_cost. simpl. generalize (costs_ p). intros l.
  induction l as [| c l IH]; simpl.
  - ring.
  - rewrite IH. ring.
Qed.

(** The substitution reads the base class only, and writes nothing. *)
Lemma substitute_reads e i o :
  snd (in_shooting (Shooting.SubstitutePlaceholderVariables e i) o) = o.
Proof.
  destruct o as [[p nu ns n dv dt h x u] t nm ml mst cs nkc fv cfv csv ov vp].
  unfold in_shooting, zoom, Shooting.SubstitutePlaceholderVariables,
    Shooting.state, Shooting.input, bind, gets, lift, ret. simpl.
  destruct (segment h 0 _); [| reflexivity]. simpl.
  destruct (segment x _ _); [| reflexivity]. simpl.
  destruct (segment u _ _); reflexivity.
Qed.

Lemma substitute_shape e i o o' :
  shape o = shape o' ->
  fst (in_shooting (Shooting.SubstitutePlaceholderVariables e i) o) =
  fst (in_shooting (Shooting.SubstitutePlaceholderVariables e i) o').
Proof.
  destruct o as [[p nu ns n dv dt h x u] t nm ml mst cs nkc fv cfv csv ov vp].
  destruct o' as [[p' nu' ns' n' dv' dt' h' x' u'] t' nm' ml' mst' cs' nkc' fv' cfv' csv' ov' vp'].
  unfold shape. simpl. intros H. injection H as <- <- <- <- <- <- <- <-.
  unfold in_shooting, zoom, Shooting.SubstitutePlaceholderVariables,
    Shooting.state, Shooting.input, bind, gets, lift, ret. simpl.
  destruct (segment h 0 _); [| reflexivity]. simpl.
  destruct (segment x _ _); [| reflexivity]. simpl.
  destruct (segment u _ _); reflexivity.
Qed.

(** At a knot of the program the substitution goes through, and it is the
    same substitution whatever the expression. *)
Lemma substitute_Done o i :
  knots_allocated o = true -> 0 <= i < N_ (hd_base o) ->
  exists time xs us, forall e,
    fst (in_shooting (Shooting.SubstitutePlaceholderVariables e i) o) =
    Done (Shooting.Substitute time xs us e).
Proof.
  unfold knots_allocated. intros H Hi.
  repeat (apply andb_prop in H; destruct H as [H ?]).
  destruct o as [[p nu ns n dv dt h x u] t nm ml mst cs nkc fv cfv csv ov vp].
  simpl in *. subst dv.
  unfold in_shooting, zoom, Shooting.SubstitutePlaceholderVariables,
    Shooting.state, Shooting.input, bind, gets, lift, ret. simpl.
  rewrite (segment_in_range h 0 i) by lia.
  rewrite (segment_in_range x (i * ns) ns) by nia.
  rewrite (segment_in_range u (i * nu) nu) by nia.
  simpl. eexists _, _, _. intros e. reflexivity.
Qed.

Lemma wp_substitute e i s r (Q : Expression -> HybridDircon -> Prop) R :
  fst (in_shooting (Shooting.SubstitutePlaceholderVariables e i) s) = Done r ->
  Q r s ->
  wp (in_shooting (Shooting.SubstitutePlaceholderVariables e i)) Q R s.
Proof.
  intros Hr HQ. unfold wp.
  rewrite (surjective_pairing (in_shooting _ s)), Hr, substitute_reads. exact HQ.
Qed.

Lemma wp_AddCost e s (Q : unit -> HybridDircon -> Prop) R :
  (forall p', Program.AddCost e (program s) = (Done tt, p') -> Q tt (set_program p' s)) ->
  wp (in_program (Program.AddCost e)) Q R s.
Proof. intros H. apply wp_in_program. apply H. reflexivity. Qed.

Section RunningCost.

Variable env : valuation.
Variable g : Expression.
Variable o : HybridDircon.

Hypothesis Hk : knots_allocated o = true.

Let n := N_ (hd_base o).

Lemma knots_sizes :
  timesteps_are_decision_variables_ (hd_base o) = true /\ 2 <= n /\
  size (h_vars_ (hd_base o)) = n - 1.
Proof.
  unfold knots_allocated in Hk. subst n.
  repeat (apply andb_prop in Hk; destruct Hk as [Hk ?]). repeat split; try lia.
  exact Hk.
Qed.

(** The cost of a knot weighted by one timestep. *)
Lemma weighted_by_one s i j :
  shape s = shape o -> 0 <= i < n -> 0 <= j < n - 1 ->
  exists hj e,
    vec_at (h_vars_ (hd_base o)) j = Done hj /\
    fst (in_shooting (Shooting.SubstitutePlaceholderVariables
                        (EDiv (EMul g (EVar hj)) (EConst 2)) i) s) = Done e /\
    (eval env e == knot_cost env o g i * timestep_value env o j / 2)%Q.
Proof.
  intros Hs Hi Hj. destruct knots_sizes as (_ & _ & Hh).
  destruct (vec_at_in_range (h_vars_ (hd_base o)) j) as (hj & Ej & _); [lia |].
  destruct (substitute_Done o i Hk Hi) as (time & xs & us & Hsub).
  exists hj. eexists. split; [exact Ej |]. split.
  - rewrite (substitute_shape _ _ s o Hs). apply Hsub.
  - unfold knot_cost, timestep_value. rewrite Hsub, Ej. simpl. reflexivity.
Qed.

(** The cost of a knot weighted by the two timesteps around it. *)
Lemma weighted_by_two s i :
  shape s = shape o -> 1 <= i < n - 1 ->
  exists hm hi e,
    vec_at (h_vars_ (hd_base o)) (i - 1) = Done hm /\
    vec_at (h_vars_ (hd_base o)) i = Done hi /\
    fst (in_shooting (Shooting.SubstitutePlaceholderVariables
                        (EDiv (EMul g (EAdd (EVar hm) (EVar hi))) (EConst 2)) i) s)
    = Done e /\
    (eval env e ==
     knot_cost env o g i * (timestep_value env o (i - 1) + timestep_value env o i) / 2)%Q.
Proof.
  intros Hs Hi. destruct knots_sizes as (_ & _ & Hh).
  destruct (vec_at_in_range (h_vars_ (hd_base o)) (i - 1)) as (hm & Em & _); [lia |].
  destruct (vec_at_in_range (h_vars_ (hd_base o)) i) as (hi & Ei & _); [lia |].
  destruct (substitute_Done o i Hk ltac:(lia)) as (time & xs & us & Hsub).
  exists hm, hi. eexists. split; [exact Em |]. split; [exact Ei |]. split.
  - rewrite (substitute_shape _ _ s o Hs). apply Hsub.
  - unfold knot_cost, timestep_value. rewrite Hsub, Em, Ei. simpl. reflexivity.
Qed.

Let interior (i : Z) : Q :=
  (knot_cost env o g i * (timestep_value env o (i - 1) + timestep_value env o i) / 2)%Q.

Lemma running_cost_run :
  wp (DoAddRunningCost g)
     (fun _ s =>
        shape s = shape o /\
        (total_cost env (program s) ==
         total_cost env (program o)
         + added_cost (knot_cost env o g) (timestep_value env o) n)%Q)
     (fun _ => False) o.
Proof.
  destruct knots_sizes as (Hdv & Hn & Hh).
  unfold DoAddRunningCost.
  apply wp_bind. unfold h_vars at 1, in_shooting at 1, zoom at 1, wp, gets at 1.
  fold (@wp HybridDircon). cbv beta iota.
  destruct (weighted_by_one o 0 0 eq_refl ltac:(lia) ltac:(lia)) as (h0 & e0 & E0 & S0 & V0).
  apply wp_bind, wp_lift. rewrite E0.
  apply wp_bind. apply (wp_substitute _ _ _ e0 _ _ S0).
  apply wp_bind, wp_AddCost. intros p0 Hp0.
  apply wp_bind. unfold N at 1, in_shooting at 1, zoom at 1, wp, gets at 1.
  cbv beta iota. change (N_ (hd_base (set_program p0 o))) with n.
  apply wp_bind. eapply wp_hoare.
  - apply hoare_for_loop
      with (I := fun j s =>
                   shape s = shape o /\
                   (total_cost env (program s) ==
                    total_cost env (program o)
                    + knot_cost env o g 0 * timestep_value env o 0 / 4
                    + sum_over 1 (j - 1) interior)%Q)
           (R := fun _ => False).
    intros j Hj. apply (proj2 (hoare_wp _ _ _ _)). intros s [Hs Hc].
    destruct (weighted_by_two s j Hs ltac:(lia)) as (hm & hi & e & Em & Ei & Se & Ve).
    apply wp_bind, wp_lift. rewrite Em.
    apply wp_bind, wp_lift. rewrite Ei.
    apply wp_bind. apply (wp_substitute _ _ _ e _ _ Se).
    apply wp_AddCost. intros p' Hp'. split; [exact Hs |].
    change (program (set_program p' s)) with p'.
    rewrite (total_cost_AddCost env _ _ _ Hp'), Hc, Ve.
    replace (j + 1 - 1) with (j - 1 + 1) by lia.
    rewrite sum_over_snoc by lia. replace (1 + (j - 1)) with j by lia.
    unfold interior. ring.
  - split; [reflexivity |].
    change (program (set_program p0 o)) with p0.
    rewrite (total_cost_AddCost env _ _ _ Hp0). simpl. rewrite V0.
    unfold sum_over. simpl. field.
  - intros u s [Hs Hc].
    destruct (weighted_by_one s (n - 1) (n - 2) Hs ltac:(lia) ltac:(lia))
      as (hl & el & El & Sl & Vl).
    apply wp_bind, wp_lift. rewrite El.
    apply wp_bind. apply (wp_substitute _ _ _ el _ _ Sl).
    apply wp_AddCost. intros p' Hp'. split; [exact Hs |].
    change (program (set_program p' s)) with p'.
    rewrite (total_cost_AddCost env _ _ _ Hp'), Hc. simpl. rewrite Vl.
    unfold added_cost.
    replace (Z.max 1 (n - 2) - 1) with (Z.max 0 (n - 3)) by lia.
    assert (Hsum : (sum_over 1 (Z.max 0 (n - 3)) interior ==
                    sum_over 1 (n - 3) interior)%Q).
    { destruct (decide (0 <= n - 3)) as [Hp | Hp].
      - rewrite Z.max_r by lia. reflexivity.
      - rewrite Z.max_l by lia. unfold sum_over.
        replace (n - 3) with (-1) by lia. reflexivity. }
    rewrite Hsum. unfold interior. field.
  - auto.
Qed.

End RunningCost.

(** X3: on a program of at least two knots, [DoAddRunningCost(g)] returns
    and raises the objective by
    g_0*h_0/4 + sum_{i=1..N-3} g_i*(h_{i-1} + h_i)/2 + g_{N-1}*h_{N-2}/4:
    the two end terms weigh a quarter of the timestep, and the knot N-2 is
    not costed at all. *)
Theorem running_cost_added (env : valuation) (g : Expression) (o : HybridDircon) :
  knots_allocated o = true ->
  fst (DoAddRunningCost g o) = Done tt /\
  (total_cost env (program (snd (DoAddRunningCost g o))) ==
   total_cost env (program o)
   + added_cost (knot_cost env o g) (timestep_value env o) (N_ (hd_base o)))%Q.
Proof.
  intros Hk. destruct (wp_result _ _ _ (running_cost_run env g o Hk)) as ([] & Hr & _ & Hc).
  split; [exact Hr | exact Hc].
Qed.

Lemma running_cost_added_witness :
  fst (DoAddRunningCost effort three_knots) = Done tt /\
  (total_cost ones (program (snd (DoAddRunningCost effort three_knots))) ==
   total_cost ones (program three_knots)
   + added_cost (knot_cost ones three_knots effort) (timestep_value ones three_knots)
                (N_ (hd_base three_knots)))%Q.
Proof. apply (running_cost_added ones effort three_knots). vm_compute. reflexivity. Defined.

(** ** Where the timestep bounds of a mode land *)

(** The object with the bindings [bs] added to its program. *)
Definition with_bindings (bs : list Binding) (o : HybridDircon) : HybridDircon :=
  set_program (mkProg (decision_variables_ (program o)) (x_initial_guess_ (program o))
                      (bindings_ (program o) ++ bs) (costs_ (program o))) o.

(** The one-variable block [h_vars().segment(j, 1)]. *)
Definition timestep_block (o : HybridDircon) (j : Z) : VectorXDecisionVariable :=
  take 1 (drop (Z.to_nat j) (h_vars_ (hd_base o))).

Lemma with_bindings_nil o : with_bindings [] o = o.
Proof.
  destruct o as [[[dvs gs bs cs] nu ns n dv dt h x u] t nm ml mst cs' nkc fv cfv csv ov vp].
  unfold with_bindings, set_program, program. simpl. rewrite app_nil_r. reflexivity.
Qed.

Lemma with_bindings_app bs bs' o :
  with_bindings bs' (with_bindings bs o) = with_bindings (bs ++ bs') o.
Proof.
  unfold with_bindings, set_program, program. simpl. rewrite app_assoc. reflexivity.
Qed.

Lemma seqZ_max lo n : seqZ lo (Z.max 0 n) = seqZ lo n.
Proof. unfold seqZ. f_equal. f_equal. lia. Qed.

Lemma wp_timestep j s (Q : VectorXDecisionVariable -> HybridDircon -> Prop) R :
  timesteps_are_decision_variables_ (hd_base s) = true ->
  0 <= j < size (h_vars_ (hd_base s)) ->
  Q (timestep_block s j) s ->
  wp (timestep j) Q R s.
Proof.
  intros Hdv Hj HQ.
  destruct s as [[p nu ns n dv dt h x u] t nm ml mst cs nkc fv cfv csv ov vp].
  simpl in *. subst dv.
  unfold wp, timestep, in_shooting, zoom, Shooting.timestep, bind, gets, lift. simpl.
  rewrite (segment_in_range h j 1) by lia. exact HQ.
Qed.

(** A loop that adds one binding per turn. *)
Lemma wp_binding_loop (o : HybridDircon) (body : Z -> M HybridDircon unit)
    (added : Z -> Binding) (bs : list Binding) n
    (Q : unit -> HybridDircon -> Prop) R :
  (forall j bs', 0 <= j < n ->
     wp (body j) (fun _ s' => s' = with_bindings [added j] (with_bindings bs' o))
        (fun _ => False) (with_bindings bs' o)) ->
  Q tt (with_bindings (bs ++ map added (seqZ 0 n)) o) ->
  wp (for_loop 0 n body) Q R (with_bindings bs o).
Proof.
  intros Hbody HQ. eapply wp_hoare.
  - apply hoare_for_loop
      with (I := fun j s => s = with_bindings (bs ++ map added (seqZ 0 j)) o)
           (R := fun _ => False).
    intros j Hj s ->. specialize (Hbody j (bs ++ map added (seqZ 0 j)) ltac:(lia)). unfold wp in Hbody.
    destruct (body j _) as [[[] | w] s']; [| exact Hbody].
    rewrite Hbody, with_bindings_app, seqZ_snoc, map_app, app_assoc by lia. reflexivity.
  - simpl. rewrite app_nil_r. reflexivity.
  - intros [] s' ->. rewrite seqZ_max. exact HQ.
  - intros s' [].
Qed.

(** The bindings "set timestep bounds" adds for a mode of [len] knots whose
    timestep range is [lo, hi]. *)
Definition timestep_bounds (o : HybridDircon) (lo hi : Q) (len : Z) : list Binding :=
  map (fun j => mkBinding (BoundingBoxConstraint lo hi) (timestep_block o j))
      (seqZ 0 len)
  ++ map (fun j => mkBinding LinearEqualityConstraint
                     (timestep_block o j ++ timestep_block o (j + 1)))
         (seqZ 0 (len - 1)).

(** X4: whatever the mode and wherever its first knot is, "set timestep
    bounds" for a mode of [len] knots bounds the timesteps 0, ..., len-1 of
    the program and equates the timesteps 0, ..., len-1 in a chain; it
    changes nothing else. *)
Theorem timestep_bounds_placed (a : Arguments_) (i : Z) (o : HybridDircon)
    (len : Z) (lo hi : Q) :
  timesteps_are_decision_variables_ (hd_base o) = true ->
  vec_at (mode_lengths_ o) i = Done len ->
  vec_at (arg_minimum_timestep a) i = Done lo ->
  vec_at (arg_maximum_timestep a) i = Done hi ->
  len <= size (h_vars_ (hd_base o)) ->
  set_timestep_bounds a i o = (Done tt, with_bindings (timestep_bounds o lo hi len) o).
Proof.
  intros Hdv Hlen Hlo Hhi Hh.
  assert (Hwp : wp (set_timestep_bounds a i)
                   (fun _ s => s = with_bindings (timestep_bounds o lo hi len) o)
                   (fun _ => False) o).
  { unfold set_timestep_bounds.
    apply wp_bind, wp_member_at. rewrite Hlen.
    apply wp_bind. rewrite <- (with_bindings_nil o) at 1.
    apply wp_binding_loop
      with (added := fun j => mkBinding (BoundingBoxConstraint lo hi) (timestep_block o j)).
    { intros j bs' Hj. apply wp_bind, wp_lift. rewrite Hlo.
      apply wp_bind, wp_lift. rewrite Hhi.
      apply wp_bind, wp_timestep; [exact Hdv | simpl; lia |].
      apply wp_in_program. reflexivity. }
    apply wp_binding_loop
      with (added := fun j => mkBinding LinearEqualityConstraint
                                (timestep_block o j ++ timestep_block o (j + 1))).
    { intros j bs' Hj.
      apply wp_bind, wp_timestep; [exact Hdv | simpl; lia |].
      apply wp_bind, wp_timestep; [exact Hdv | simpl; lia |].
      apply wp_in_program. reflexivity. }
    rewrite <- app_assoc. reflexivity. }
  unfold wp in Hwp. destruct (set_timestep_bounds a i o) as [[[] | w] s]; [| destruct Hwp].
  rewrite Hwp. reflexivity.
Qed.

Lemma timestep_bounds_placed_witness :
  set_timestep_bounds uneven_arguments 1 uneven_object =
  (Done tt, with_bindings (timestep_bounds uneven_object (1 # 2) 2 3) uneven_object).
Proof.
  apply (timestep_bounds_placed uneven_arguments 1 uneven_object 3 (1 # 2) 2);
    try (vm_compute; reflexivity).
  apply Z.leb_le. vm_compute. reflexivity.
Defined.

(** ** Seeding the force variables *)

(** The initial guess with the guess of every variable of [vars] set to 0. *)
Definition zeroed (vars : VectorXDecisionVariable) (g : list (option Q))
  : list (option Q) :=
  fold_left (fun g v => <[var_id v := Some 0%Q]> g) vars g.

Lemma zeroed_length vars g : length (zeroed vars g) = length g.
Proof.
  revert g. induction vars as [| v vars IH]; intros g; simpl; [reflexivity |].
  rewrite IH, length_insert. reflexivity.
Qed.

Lemma zeroed_out vars g k :
  (forall v, In v vars -> var_id v <> k) -> zeroed vars g !! k = g !! k.
Proof.
  revert g. induction vars as [| v vars IH]; intros g Hk; simpl; [reflexivity |].
  rewrite IH by (intros v' Hv'; apply Hk; right; exact Hv').
  apply list_lookup_insert_ne. apply Hk. left. reflexivity.
Qed.

Lemma zeroed_in vars g v :
  In v vars -> (var_id v < length g)%nat ->
  zeroed vars g !! var_id v = Some (Some 0%Q).
Proof.
  induction vars as [| v' vars IH] using rev_ind; intros Hin Hlt; [destruct Hin |].
  unfold zeroed. rewrite fold_left_app. simpl. fold (zeroed vars g).
  destruct (decide (var_id v' = var_id v)) as [-> | Hne].
  - apply list_lookup_insert_eq. rewrite zeroed_length. exact Hlt.
  - rewrite list_lookup_insert_ne by exact Hne.
    apply in_app_or in Hin. destruct Hin as [Hin | [-> | []]]; [| congruence].
    apply IH; assumption.
Qed.

Lemma zeroed_app vars vars' g : zeroed (vars ++ vars') g = zeroed vars' (zeroed vars g).
Proof. apply fold_left_app. Qed.

Lemma SetInitialGuess_zeros vars p :
  Program.SetInitialGuess vars (replicate (length vars) 0%Q) p =
  (Done tt, mkProg (decision_variables_ p) (zeroed vars (x_initial_guess_ p))
                   (bindings_ p) (costs_ p)).
Proof.
  unfold Program.SetInitialGuess. rewrite length_replicate, Nat.eqb_refl. simpl.
  unfold modify. f_equal. f_equal. unfold zeroed.
  generalize (x_initial_guess_ p). induction vars as [| v vars IH]; intros g; simpl;
    [reflexivity | apply IH].
Qed.

(** The timestep [SetInitialForceTrajectory] starts from can be read: the
    guess of the first timestep variable, or the fixed timestep. *)
Definition reads_timestep (o : HybridDircon) : bool :=
  if timesteps_are_decision_variables_ (hd_base o) then
    match vec_at (h_vars_ (hd_base o)) 0 with
    | Done h0 =>
        match vec_at (x_initial_guess_ (program o)) (Z.of_nat (var_id h0)) with
        | Done _ => true
        | Abort _ => false
        end
    | Abort _ => false
    end
  else true.

(** The object with the initial guess [g] in its program. *)
Definition with_guess (g : list (option Q)) (o : HybridDircon) : HybridDircon :=
  set_program (mkProg (decision_variables_ (program o)) g
                      (bindings_ (program o)) (costs_ (program o))) o.

Lemma seed_zeros_run mode l lc vc o fv cfv csv :
  reads_timestep o = true ->
  empty l = true -> empty lc = true -> empty vc = true ->
  vec_at (force_vars_ o) mode = Done fv ->
  vec_at (collocation_force_vars_ o) mode = Done cfv ->
  vec_at (collocation_slack_vars_ o) mode = Done csv ->
  wp (SetInitialForceTrajectory mode l lc vc)
     (fun _ s => s = with_guess (zeroed (fv ++ cfv ++ csv) (x_initial_guess_ (program o))) o)
     (fun _ => False) o.
Proof.
  intros Hh Hl Hlc Hvc Hfv Hcfv Hcsv. unfold SetInitialForceTrajectory.
  rewrite Hl, Hlc, Hvc. unfold reads_timestep in Hh.
  eapply wp_bind, wp_read; [auto with readonly | reflexivity |].
  apply wp_bind.
  assert (Hread : exists h,
    (if timesteps_are_decision_variables_ (hd_base o)
     then let* hv := h_vars in
          let* h0 := lift (vec_at hv 0) in
          in_program (Program.GetInitialGuess h0)
     else let* dt := in_shooting (gets fixed_timestep_) in ret (Some dt)) o
    = (Done h, o)).
  { destruct (timesteps_are_decision_variables_ (hd_base o)).
    - destruct (vec_at (h_vars_ (hd_base o)) 0) as [h0 | w] eqn:E0; [| discriminate].
      destruct (vec_at (x_initial_guess_ (program o)) (Z.of_nat (var_id h0)))
        as [g | w] eqn:Eg; [| discriminate].
      exists g.
      unfold h_vars, in_shooting, in_program, zoom, Program.GetInitialGuess,
        bind, gets, lift.
      rewrite set_hd_base_id, E0. simpl. rewrite Eg, set_program_id. reflexivity.
    - eexists. unfold in_shooting, zoom, bind, gets, ret.
      rewrite set_hd_base_id. reflexivity. }
  destruct Hread as [h Hread]. unfold wp at 1. simpl in Hread |- *. rewrite Hread.
  eapply wp_bind, wp_read; [auto with readonly | reflexivity |].
  apply wp_bind, wp_member_at. rewrite Hfv.
  apply wp_bind, wp_ret, wp_bind, wp_in_program. rewrite SetInitialGuess_zeros.
  apply wp_bind, wp_member_at. simpl. rewrite Hcfv.
  apply wp_bind, wp_ret, wp_bind, wp_in_program. rewrite SetInitialGuess_zeros.
  apply wp_bind, wp_member_at. simpl. rewrite Hcsv.
  apply wp_bind, wp_ret, wp_in_program. rewrite SetInitialGuess_zeros.
  unfold with_guess, set_program, program. simpl. rewrite !zeroed_app. reflexivity.
Qed.

(** X7: with the three trajectories empty, [SetInitialForceTrajectory]
    returns, sets the guess of every force, collocation force and collocation
    slack variable of the mode to 0, and leaves every other guess as it was. *)
Theorem empty_trajectories_seed_zeros (mode : Z) (l lc vc : PiecewisePolynomialFn)
    (o : HybridDircon) (fv cfv csv : VectorXDecisionVariable) :
  reads_timestep o = true ->
  empty l = true -> empty lc = true -> empty vc = true ->
  vec_at (force_vars_ o) mode = Done fv ->
  vec_at (collocation_force_vars_ o) mode = Done cfv ->
  vec_at (collocation_slack_vars_ o) mode = Done csv ->
  fst (SetInitialForceTrajectory mode l lc vc o) = Done tt /\
  (forall v, In v (fv ++ cfv ++ csv) ->
     (var_id v < length (x_initial_guess_ (program o)))%nat ->
     x_initial_guess_ (program (snd (SetInitialForceTrajectory mode l lc vc o)))
       !! var_id v = Some (Some 0%Q)) /\
  (forall k, (forall v, In v (fv ++ cfv ++ csv) -> var_id v <> k) ->
     x_initial_guess_ (program (snd (SetInitialForceTrajectory mode l lc vc o))) !! k
     = x_initial_guess_ (program o) !! k).
Proof.
  intros Hh Hl Hlc Hvc Hfv Hcfv Hcsv.
  destruct (wp_result _ _ _ (seed_zeros_run mode l lc vc o fv cfv csv
                               Hh Hl Hlc Hvc Hfv Hcfv Hcsv)) as ([] & Hr & Hs).
  rewrite Hs. split; [exact Hr |]. split.
  - intros v Hin Hlt. apply zeroed_in; assumption.
  - intros k Hk. apply zeroed_out. exact Hk.
Qed.

Lemma empty_trajectories_seed_zeros_witness :
  fst (SetInitialForceTrajectory 0 no_trajectory no_trajectory no_trajectory
         one_row_object) = Done tt /\
  (forall v,
     In v (nth 0 (force_vars_ one_row_object) []
           ++ nth 0 (collocation_force_vars_ one_row_object) []
           ++ nth 0 (collocation_slack_vars_ one_row_object) []) ->
     (var_id v < length (x_initial_guess_ (program one_row_object)))%nat ->
     x_initial_guess_
       (program (snd (SetInitialForceTrajectory 0 no_trajectory no_trajectory
                        no_trajectory one_row_object)))
       !! var_id v = Some (Some 0%Q)) /\
  (forall k,
     (forall v,
        In v (nth 0 (force_vars_ one_row_object) []
              ++ nth 0 (collocation_force_vars_ one_row_object) []
              ++ nth 0 (collocation_slack_vars_ one_row_object) []) ->
        var_id v <> k) ->
     x_initial_guess_
       (program (snd (SetInitialForceTrajectory 0 no_trajectory no_trajectory
                        no_trajectory one_row_object))) !! k
     = x_initial_guess_ (program one_row_object) !! k).
Proof.
  apply (empty_trajectories_seed_zeros 0 no_trajectory no_trajectory no_trajectory
           one_row_object); vm_compute; reflexivity.
Defined.

(** ** A force trajectory longer than the mode *)

Lemma set_segment_Done {A} (v : list A) start n x v' :
  set_segment v start n x = Done v' -> start + n <= size v /\ size v' = size v.
Proof.
  unfold set_segment.
  destruct (0 <=? start) eqn:E1; [| discriminate].
  destruct (0 <=? n) eqn:E2; [| discriminate].
  destruct (start + n <=? size v) eqn:E3; [| discriminate].
  destruct (size x =? n) eqn:E4; [| discriminate].
  simpl. intros H. injection H as <-. split; [lia |].
  unfold size in *. rewrite !length_app, length_take, length_drop. lia.
Qed.

(** The loop writing one block per knot of the whole program leaves a guess
    vector that is shorter than that. *)
Lemma seeding_loop_stops (o : HybridDircon) (member : HybridDircon -> list Z)
    (mode nc n : Z) (guess : list Q) (block : Z -> list Q) :
  vec_at (member o) mode = Done nc -> 0 < nc -> size guess < nc * n ->
  hoare (fun s => s = o)
        (for_loop_acc 0 n guess (fun i guess =>
           let* nc := member_at member mode in
           lift (set_segment guess (nc * i) nc (block i))))
        (fun _ _ => False) (fun s => s = o).
Proof.
  intros Hnc Hpos Hlt.
  eapply hoare_conseq
    with (P' := fun s => s = o /\ size guess = size guess /\ nc * 0 <= size guess)
         (Q' := fun acc s => s = o /\ size acc = size guess /\
                             nc * Z.max 0 n <= size guess)
         (R' := fun s => s = o).
  - apply hoare_for_loop_acc
      with (I := fun j acc s => s = o /\ size acc = size guess /\ nc * j <= size guess)
           (R := fun s => s = o).
    intros j acc Hj. apply (proj2 (hoare_wp _ _ _ _)). intros s (-> & Hacc & Hle).
    apply wp_bind, wp_member_at. rewrite Hnc. apply wp_lift.
    destruct (set_segment acc (nc * j) nc (block j)) as [acc' | w] eqn:E; [| reflexivity].
    apply set_segment_Done in E as [E1 E2]. split; [reflexivity |]. split; lia.
  - intros s ->. split; [reflexivity |]. split; [reflexivity |]. unfold size. lia.
  - intros acc s (_ & _ & Hle). nia.
  - auto.
Qed.

(** X8: for a mode whose force block is shorter than one block per knot of
    the whole program (every mode of a transcription of several modes), a
    force trajectory that is not empty stops [SetInitialForceTrajectory]:
    the loop runs over all N knots; no guess is set. *)
Theorem force_trajectory_stops (mode : Z) (l lc vc : PiecewisePolynomialFn)
    (o : HybridDircon) (fv : VectorXDecisionVariable) (nc : Z) :
  empty l = false ->
  vec_at (force_vars_ o) mode = Done fv ->
  vec_at (num_kinematic_constraints_ o) mode = Done nc ->
  0 < nc -> size fv < nc * N_ (hd_base o) ->
  (exists w, fst (SetInitialForceTrajectory mode l lc vc o) = Abort w) /\
  snd (SetInitialForceTrajectory mode l lc vc o) = o.
Proof.
  intros Hl Hfv Hnc Hpos Hlt.
  assert (Hwp : wp (SetInitialForceTrajectory mode l lc vc)
                   (fun _ _ => False) (fun s => s = o) o).
  { unfold SetInitialForceTrajectory. rewrite Hl.
    apply wp_bind, wp_readonly; [auto with readonly | reflexivity | intros dv _].
    apply wp_bind, wp_readonly; [| reflexivity | intros h _].
    { destruct dv; readonly_tac.
      unfold Program.GetInitialGuess. apply readonly_in_program. readonly_tac. }
    eapply wp_bind, wp_read; [auto with readonly | reflexivity |].
    apply wp_bind, wp_member_at. rewrite Hfv.
    apply wp_bind. eapply wp_hoare.
    - apply (seeding_loop_stops o num_kinematic_constraints_ mode nc (N_ (hd_base o))
               (replicate (length fv) 0%Q)
               (fun i => value l (option_map (fun h => 0 + inject_Z i * h)%Q h))).
      + exact Hnc.
      + exact Hpos.
      + unfold size in *. rewrite length_replicate. exact Hlt.
    - reflexivity.
    - intros x s [].
    - auto. }
  unfold wp in Hwp.
  destruct (SetInitialForceTrajectory mode l lc vc o) as [[[] | w] s]; [destruct Hwp |].
  split; [exists w; reflexivity | exact Hwp].
Qed.

Lemma force_trajectory_stops_witness :
  (exists w, fst (SetInitialForceTrajectory 0 constant_five no_trajectory no_trajectory
                    one_row_object) = Abort w) /\
  snd (SetInitialForceTrajectory 0 constant_five no_trajectory no_trajectory
         one_row_object) = one_row_object.
Proof.
  apply (force_trajectory_stops 0 constant_five no_trajectory no_trajectory
           one_row_object (nth 0 (force_vars_ one_row_object) []) 1);
    vm_compute; reflexivity.
Defined.

(** ** What the force cost adds up to *)

(** The sum of the squares of the variables [vars]. *)
Definition sum_of_squares (env : valuation) (vars : VectorXDecisionVariable) : Q :=
  fold_right (fun v acc => val_var env v * val_var env v + acc)%Q 0%Q vars.

Lemma sum_of_squares_app env u v :
  (sum_of_squares env (u ++ v) == sum_of_squares env u + sum_of_squares env v)%Q.
Proof.
  unfold sum_of_squares. induction u as [| x u IH]; simpl.
  - ring.
  - rewrite IH. ring.
Qed.

Lemma total_cost_AddL2NormCost env dim vars p p' :
  Program.AddL2NormCost dim vars p = (Done tt, p') ->
  (total_cost env p' == total_cost env p + sum_of_squares env vars)%Q.
Proof.
  unfold Program.AddL2NormCost, modify. intros H. injection H as <-.
  unfold total_cost. simpl. generalize (costs_ p). intros l.
  induction l as [| c l IH]; simpl.
  - unfold sum_of_squares. ring.
  - rewrite IH. ring.
Qed.

Lemma take_block {A} (v : list A) (nc j : Z) :
  0 <= nc -> 0 <= j ->
  take (Z.to_nat (nc * (j + 1))) v =
  take (Z.to_nat (nc * j)) v ++ take (Z.to_nat nc) (drop (Z.to_nat (j * nc)) v).
Proof.
  intros Hnc Hj.
  replace (Z.to_nat (nc * (j + 1))) with (Z.to_nat (nc * j) + Z.to_nat nc)%nat by nia.
  replace (Z.to_nat (j * nc)) with (Z.to_nat (nc * j)) by (f_equal; lia).
  symmetry. apply take_take_drop.
Qed.

Lemma force_block mode index s fv nc :
  vec_at (force_vars_ s) mode = Done fv ->
  vec_at (num_kinematic_constraints_ s) mode = Done nc ->
  0 <= index -> 0 <= nc -> index * nc + nc <= size fv ->
  fst (force mode index s) = Done (take (Z.to_nat nc) (drop (Z.to_nat (index * nc)) fv)).
Proof.
  intros Hfv Hnc Hi Hn Hle.
  unfold force, force_vars, num_kinematic_constraints, member_at, bind, gets, lift.
  rewrite Hfv. simpl. rewrite Hnc. simpl. apply segment_in_range; lia.
Qed.

Lemma force_cost_run env (a : Arguments_) i o opt nc len fv :
  vec_at (arg_options a) i = Done opt ->
  Qeq_bool (getForceCost opt) 0 = false ->
  vec_at (num_kinematic_constraints_ o) i = Done nc ->
  vec_at (mode_lengths_ o) i = Done len ->
  vec_at (force_vars_ o) i = Done fv ->
  0 <= nc -> 0 <= len -> size fv = nc * len ->
  wp (add_force_cost a i)
     (fun _ s =>
        (total_cost env (program s) ==
         total_cost env (program o) + sum_of_squares env fv)%Q)
     (fun _ => False) o.
Proof.
  intros Hopt Hw Hnc Hlen Hfv Hn Hl Hsz. unfold add_force_cost.
  apply wp_bind, wp_lift. rewrite Hopt, Hw. simpl.
  eapply wp_bind, wp_read; [auto with readonly | exact Hnc |].
  apply wp_bind, wp_member_at. rewrite Hlen.
  eapply wp_hoare.
  - apply hoare_for_loop
      with (I := fun j s =>
                   (vec_at (force_vars_ s) i = Done fv /\
                    vec_at (num_kinematic_constraints_ s) i = Done nc) /\
                   (total_cost env (program s) ==
                    total_cost env (program o)
                    + sum_of_squares env (take (Z.to_nat (nc * j)) fv))%Q)
           (R := fun _ => False).
    intros j Hj. apply (proj2 (hoare_wp _ _ _ _)). intros s [[Hfv' Hnc'] Hc].
    eapply wp_bind, wp_read;
      [auto with readonly | apply (force_block i j s fv nc); (assumption || nia) |].
    apply wp_in_program.
    destruct (Program.AddL2NormCost _ _ (program s)) as [[[] | w] p'] eqn:E;
      [| discriminate E].
    split; [split; assumption |].
    change (program (set_program p' s)) with p'.
    rewrite (total_cost_AddL2NormCost env _ _ _ _ E), Hc, take_block by lia.
    rewrite sum_of_squares_app. ring.
  - split; [split; assumption |]. rewrite Z.mul_0_r. simpl. unfold sum_of_squares.
    simpl. ring.
  - intros [] s [_ Hc]. rewrite Hc. rewrite Z.max_r by lia.
    rewrite take_ge by (unfold size in Hsz; lia). reflexivity.
  - auto.
Qed.

(** X9: where the option asks for a force cost, whatever its weight, the
    constructor's "force cost" step returns and raises the objective by the
    plain sum of the squares of the mode's force variables, each once. *)
Theorem force_cost_added (env : valuation) (a : Arguments_) (i : Z) (o : HybridDircon)
    (opt : DirconOptions) (nc len : Z) (fv : VectorXDecisionVariable) :
  vec_at (arg_options a) i = Done opt ->
  Qeq_bool (getForceCost opt) 0 = false ->
  vec_at (num_kinematic_constraints_ o) i = Done nc ->
  vec_at (mode_lengths_ o) i = Done len ->
  vec_at (force_vars_ o) i = Done fv ->
  0 <= nc -> 0 <= len -> size fv = nc * len ->
  fst (add_force_cost a i o) = Done tt /\
  (total_cost env (program (snd (add_force_cost a i o))) ==
   total_cost env (program o) + sum_of_squares env fv)%Q.
Proof.
  intros Hopt Hw Hnc Hlen Hfv Hn Hl Hsz.
  destruct (wp_result _ _ _ (force_cost_run env a i o opt nc len fv
                               Hopt Hw Hnc Hlen Hfv Hn Hl Hsz)) as ([] & Hr & Hc).
  split; [exact Hr | exact Hc].
Qed.

(** Options asking for a force cost of weight 7. *)
Definition costly_options : DirconOptions :=
  mkOptions [] ValueAndVelocity ValueAndVelocity 7%Q.

Definition costly_arguments : Arguments_ :=
  mkArguments pendulum [2; 1] [(1 # 100)%Q; (1 # 100)%Q] [3%Q; 3%Q]
              [one_row; unconstrained] [costly_options; costly_options].

Lemma force_cost_added_witness :
  fst (add_force_cost costly_arguments 0 one_row_object) = Done tt /\
  (total_cost ones (program (snd (add_force_cost costly_arguments 0 one_row_object))) ==
   total_cost ones (program one_row_object)
   + sum_of_squares ones (nth 0 (force_vars_ one_row_object) []))%Q.
Proof.
  apply (force_cost_added ones costly_arguments 0 one_row_object costly_options 1 2);
    try lia; vm_compute; reflexivity.
Defined.

(** ** Where the force constraints of a mode land *)

(** The rows of the constraint objects before object [j]. *)
Definition rows_before (objs : list DirconKinematicData) (j : nat) : Z :=
  fold_right (fun kd acc => getLength kd + acc) 0 (take j objs).

(** The bindings of the force constraints of one object, on the block of
    the force variables [fv] that starts at [offset]. *)
Definition object_force_bindings (fv : VectorXDecisionVariable)
    (kd : DirconKinematicData) (offset : Z) : list Binding :=
  map (fun k => mkBinding (ForceConstraint kd k)
                  (take (Z.to_nat (getLength kd)) (drop (Z.to_nat offset) fv)))
      (seqZ 0 (numForceConstraints kd)).

(** The bindings "Add constraints on force variables" adds for knot [l] of a
    mode of [nc] rows: object [j] is bound at the offset of the rows up to
    and including its own. *)
Definition knot_force_bindings (fv : VectorXDecisionVariable)
    (objs : list DirconKinematicData) (nc l : Z) (j : nat) : list Binding :=
  match objs !! j with
  | Some kd => object_force_bindings fv kd (l * nc + rows_before objs (S j))
  | None => []
  end.

Definition mode_force_bindings (fv : VectorXDecisionVariable)
    (objs : list DirconKinematicData) (nc len : Z) : list Binding :=
  flat_map (fun l => flat_map (knot_force_bindings fv objs nc l) (seq 0 (length objs)))
           (seqZ 0 (len - 1)).

Lemma rows_before_S objs j kd :
  objs !! j = Some kd -> rows_before objs (S j) = rows_before objs j + getLength kd.
Proof.
  intros H. unfold rows_before. rewrite (take_S_r _ _ _ H), foldr_app. simpl.
  generalize (take j objs). intros l. induction l as [| x l IH]; simpl; lia.
Qed.

Lemma rows_before_bounds objs j kd :
  Forall (fun kd => 0 <= getLength kd) objs -> objs !! j = Some kd ->
  0 <= rows_before objs j /\
  rows_before objs j + getLength kd <= countConstraints (mkDataSet 0 objs).
Proof.
  unfold rows_before, countConstraints. simpl. intros Hpos.
  revert j. induction Hpos as [| x objs Hx Hpos IH]; intros j Hj; [discriminate |].
  destruct j as [| j]; simpl in *.
  - injection Hj as <-. split; [lia |].
    assert (0 <= fold_right (fun kd acc => getLength kd + acc) 0 objs).
    { clear IH. induction Hpos; simpl; lia. }
    lia.
  - specialize (IH j Hj). lia.
Qed.

(** A loop that adds a list of bindings per turn. *)
Lemma wp_bindings_loop (o : HybridDircon) (body : Z -> M HybridDircon unit)
    (added : Z -> list Binding) (bs : list Binding) n
    (Q : unit -> HybridDircon -> Prop) R :
  (forall j bs', 0 <= j < n ->
     wp (body j) (fun _ s' => s' = with_bindings (added j) (with_bindings bs' o))
        (fun _ => False) (with_bindings bs' o)) ->
  Q tt (with_bindings (bs ++ flat_map added (seqZ 0 n)) o) ->
  wp (for_loop 0 n body) Q R (with_bindings bs o).
Proof.
  intros Hbody HQ. eapply wp_hoare.
  - apply hoare_for_loop
      with (I := fun j s => s = with_bindings (bs ++ flat_map added (seqZ 0 j)) o)
           (R := fun _ => False).
    intros j Hj s ->. specialize (Hbody j (bs ++ flat_map added (seqZ 0 j)) ltac:(lia)).
    unfold wp in Hbody. destruct (body j _) as [[[] | w] s']; [| exact Hbody].
    rewrite Hbody, with_bindings_app, seqZ_snoc, flat_map_app, app_assoc by lia.
    simpl. rewrite app_nil_r. reflexivity.
  - simpl. rewrite app_nil_r. reflexivity.
  - intros [] s' ->. rewrite seqZ_max. exact HQ.
  - intros s' [].
Qed.

Section ForceConstraints.

Variable i : Z.
Variable o : HybridDircon.
Variable len nc : Z.
Variable ds : DirconKinematicDataSet.
Variable fv : VectorXDecisionVariable.

Hypothesis Hlen : vec_at (mode_lengths_ o) i = Done len.
Hypothesis Hnc : vec_at (num_kinematic_constraints_ o) i = Done nc.
Hypothesis Hds : vec_at (constraints_ o) i = Done ds.
Hypothesis Hfv : vec_at (force_vars_ o) i = Done fv.
Hypothesis Hpos : Forall (fun kd => 0 <= getLength kd) (ds_constraints ds).
Hypothesis Hcount : nc = countConstraints ds.
Hypothesis Hsize : size fv = nc * len.

Let objs := ds_constraints ds.

Lemma count_of_objects : countConstraints ds = countConstraints (mkDataSet 0 objs).
Proof. reflexivity. Qed.

(** The force constraints of one object at one knot. *)
Lemma object_loop_run (l : Z) (j : nat) kd bs
    (Q : unit -> HybridDircon -> Prop) R :
  0 <= l < len - 1 -> objs !! j = Some kd ->
  Q tt (with_bindings
          (bs ++ object_force_bindings fv kd (l * nc + rows_before objs (S j))) o) ->
  wp (for_loop 0 (numForceConstraints kd) (fun k =>
        let* fv := force_vars i in
        let* block := lift (segment fv (l * nc + rows_before objs j + getLength kd)
                                    (getLength kd)) in
        in_program (Program.AddConstraint (ForceConstraint kd k) block)))
     Q R (with_bindings bs o).
Proof.
  intros Hl Hj HQ.
  destruct (rows_before_bounds objs j kd Hpos Hj) as [Hlo Hhi].
  rewrite <- count_of_objects, <- Hcount in Hhi.
  assert (Hk : 0 <= getLength kd)
    by (apply (proj1 (Forall_lookup _ _) Hpos j kd Hj)).
  apply wp_binding_loop
    with (added := fun k => mkBinding (ForceConstraint kd k)
                     (take (Z.to_nat (getLength kd))
                           (drop (Z.to_nat (l * nc + rows_before objs (S j))) fv))).
  - intros k bs' Hk'.
    eapply wp_bind, wp_read; [auto with readonly | exact Hfv |].
    apply wp_bind, wp_lift. rewrite segment_in_range by nia.
    apply wp_in_program. rewrite (rows_before_S _ _ _ Hj), Z.add_assoc. reflexivity.
  - exact HQ.
Qed.

(** The loop over the objects at one knot, from object [j0] on. *)
Lemma objects_loop_run (l : Z) :
  0 <= l < len - 1 ->
  forall n j0 bs,
    (j0 + n)%nat = length objs ->
    wp (for_range_acc (Z.of_nat j0) n (l * nc + rows_before objs j0)
          (fun j start_index =>
             let* constraint_j := lift (getConstraint ds j) in
             let start_index := start_index + getLength constraint_j in
             for_loop 0 (numForceConstraints constraint_j) (fun k =>
               let* fv := force_vars i in
               let* block := lift (segment fv start_index (getLength constraint_j)) in
               in_program (Program.AddConstraint (ForceConstraint constraint_j k) block)) >>
             ret start_index))
       (fun _ s =>
          s = with_bindings
                (bs ++ flat_map (knot_force_bindings fv objs nc l) (seq j0 n)) o)
       (fun _ => False) (with_bindings bs o).
Proof.
  intros Hl. induction n as [| n IH]; intros j0 bs Hn.
  - simpl. rewrite app_nil_r. reflexivity.
  - destruct (lookup_lt_is_Some_2 objs j0 ltac:(lia)) as [kd Hkd].
    simpl for_range_acc. apply wp_bind, wp_bind, wp_lift.
    unfold getConstraint. fold objs. rewrite (vec_at_lookup objs (Z.of_nat j0) kd);
      [| lia | rewrite Nat2Z.id; exact Hkd].
    apply wp_bind. apply (object_loop_run l j0 kd bs); [exact Hl | exact Hkd |].
    apply wp_ret.
    replace (Z.of_nat j0 + 1) with (Z.of_nat (S j0)) by lia.
    replace (l * nc + rows_before objs j0 + getLength kd)
      with (l * nc + rows_before objs (S j0))
      by (rewrite (rows_before_S _ _ _ Hkd); lia).
    eapply wp_hoare with (P := fun s => s = with_bindings _ o);
      [intros s ->; apply (IH (S j0)); lia | reflexivity | | intros s' []].
    intros x s' ->. simpl. unfold knot_force_bindings at 2. rewrite Hkd.
    rewrite <- app_assoc. reflexivity.
Qed.

Lemma force_constraints_run :
  wp (add_force_constraints i)
     (fun _ s => s = with_bindings (mode_force_bindings fv objs nc len) o)
     (fun _ => False) o.
Proof.
  unfold add_force_constraints.
  apply wp_bind, wp_member_at. rewrite Hlen.
  rewrite <- (with_bindings_nil o) at 1.
  apply wp_bindings_loop
    with (added := fun l => flat_map (knot_force_bindings fv objs nc l)
                              (seq 0 (length objs))).
  - intros l bs' Hl.
    eapply wp_bind, wp_read; [auto with readonly | exact Hnc |].
    apply wp_bind, wp_member_at. simpl. rewrite Hds.
    apply wp_bind. unfold for_loop_acc, getNumConstraintObjects, size. fold objs.
    replace (Z.to_nat (Z.of_nat (length objs) - 0)) with (length objs) by lia.
    replace (l * nc) with (l * nc + rows_before objs 0) by (unfold rows_before; simpl; lia).
    eapply wp_hoare with (P := fun s => s = with_bindings bs' o);
      [intros s ->; apply (objects_loop_run l Hl (length objs) 0%nat bs'); lia
      | reflexivity | | intros s' []].
    intros x s' ->. apply wp_ret. rewrite with_bindings_app. reflexivity.
  - reflexivity.
Qed.

End ForceConstraints.

(** X10: "Add constraints on force variables" returns, for a mode whose
    force block has one block of c rows per knot, and binds the force
    constraints of object j at knot l (the knots 0, ..., len-2) to the
    variables from l*c + (rows of the objects 0, ..., j) on: the offset is
    advanced by the object's length before it is used, so each object is
    bound one object further than its own rows, and the first rows of the
    mode's force block are bound to nothing. *)
Theorem force_constraints_placed (i : Z) (o : HybridDircon) (len nc : Z)
    (ds : DirconKinematicDataSet) (fv : VectorXDecisionVariable) :
  vec_at (mode_lengths_ o) i = Done len ->
  vec_at (num_kinematic_constraints_ o) i = Done nc ->
  vec_at (constraints_ o) i = Done ds ->
  vec_at (force_vars_ o) i = Done fv ->
  Forall (fun kd => 0 <= getLength kd) (ds_constraints ds) ->
  nc = countConstraints ds ->
  size fv = nc * len ->
  add_force_constraints i o =
  (Done tt, with_bindings (mode_force_bindings fv (ds_constraints ds) nc len) o).
Proof.
  intros Hlen Hnc Hds Hfv Hpos Hcount Hsize.
  pose proof (force_constraints_run i o len nc ds fv Hlen Hnc Hds Hfv Hpos Hcount Hsize)
    as Hwp.
  unfold wp in Hwp. destruct (add_force_constraints i o) as [[[] | w] s]; [| destruct Hwp].
  rewrite Hwp. reflexivity.
Qed.

Lemma force_constraints_placed_witness :
  add_force_constraints 0 contact_object =
  (Done tt,
   with_bindings
     (mode_force_bindings (nth 0 (force_vars_ contact_object) [])
                          (ds_constraints two_contacts) 2 2)
     contact_object).
Proof.
  apply (force_constraints_placed 0 contact_object 2 2 two_contacts
           (nth 0 (force_vars_ contact_object) []));
    try (vm_compute; reflexivity).
  repeat constructor; simpl; lia.
Defined.
